(** * Linguistic pattern mining pipeline of [main.py]

    A shallow embedding of the core functions of [src/main.py]
    ([extract_ngrams], [is_real_sentence], [clause_dep_signature],
    [remove_gost_phrases], [top_syntactic_structures],
    [find_sentence_with_ngram]) together with the parts of the Python
    runtime they rely on (strings, slices, [range], [collections.Counter],
    [dict], [re.sub]).  The spaCy pipeline [nlp] is external to the
    repository and is a parameter of every function that calls it. *)

From Stdlib Require Import String Ascii.
From Stdlib Require Import List ZArith NArith Lia Bool Sorted Permutation.
Import ListNotations.

Set Implicit Arguments.

(* ================================================================== *)
(** * Python strings as sequences of code points *)
(* ================================================================== *)

Module Py.

(** A Python [str] is a sequence of Unicode code points. *)
Definition str := list N.

Definition str_eqb (a b : str) : bool :=
  if list_eq_dec N.eq_dec a b then true else false.

(** Tuples of strings ([lemma_key], signatures) are compared
    componentwise, as Python compares tuples. *)
Definition tuple := list str.

Definition tuple_eqb (a b : tuple) : bool :=
  if list_eq_dec (list_eq_dec N.eq_dec) a b then true else false.

(** ** String literals

    The literals of the source file are UTF-8 text; [u] decodes the
    bytes of a Rocq string literal to code points. *)
Fixpoint utf8 (pending : nat) (acc : N) (s : string) : str :=
  match s with
  | EmptyString => []
  | String a s' =>
      let b := N_of_ascii a in
      match pending with
      | O =>
          if (b <? 128)%N then b :: utf8 0 0 s'
          else if (b <? 224)%N then utf8 1 (b - 192) s'
          else if (b <? 240)%N then utf8 2 (b - 224) s'
          else utf8 3 (b - 240) s'
      | S O => (acc * 64 + (b - 128))%N :: utf8 0 0 s'
      | S p => utf8 p (acc * 64 + (b - 128)) s'
      end
  end.

Definition u (s : string) : str := utf8 0 0 s.
Arguments u s%_string.

(** ** Character classes

    The tables of [str.isspace], [str.isdecimal], [str.isalnum] and of
    the simple case mappings.  The whitespace table is complete; the
    others are given on Basic Latin, Latin-1 Supplement and the Cyrillic
    block U+0400..U+04FF, the alphabet of the analysed corpus.  Code
    points outside these blocks are classified as neither digit nor
    alphanumeric and as caseless, so statements about the pattern are to
    be read for texts over these blocks and punctuation: the code points
    of [tabulated] below. *)
Definition in_range (lo hi c : N) : bool := ((lo <=? c) && (c <=? hi))%N.

Definition isspace (c : N) : bool :=
  in_range 9 13 c || in_range 28 32 c || (c =? 133)%N || (c =? 160)%N
  || (c =? 5760)%N || in_range 8192 8202 c || (c =? 8232)%N
  || (c =? 8233)%N || (c =? 8239)%N || (c =? 8287)%N || (c =? 12288)%N.

Definition isdecimal (c : N) : bool := in_range 48 57 c.

Definition isalnum (c : N) : bool :=
  in_range 48 57 c || in_range 65 90 c || in_range 97 122 c
  || (c =? 170)%N || in_range 178 179 c || (c =? 181)%N
  || in_range 185 186 c || in_range 188 190 c
  || in_range 192 214 c || in_range 216 246 c || in_range 248 255 c
  || in_range 1024 1153 c || in_range 1162 1279 c.

Definition cp_lower (c : N) : N :=
  if in_range 65 90 c then (c + 32)%N
  else if in_range 192 214 c || in_range 216 222 c then (c + 32)%N
  else if in_range 1024 1039 c then (c + 80)%N
  else if in_range 1040 1071 c then (c + 32)%N
  else if (in_range 1120 1153 c || in_range 1162 1215 c
           || in_range 1232 1279 c) && N.even c then (c + 1)%N
  else if (c =? 1216)%N then 1231%N
  else if in_range 1217 1230 c && N.odd c then (c + 1)%N
  else c.

(** [s.lower()] *)
Definition lower (s : str) : str := map cp_lower s.

(** The code points on which the tables above are those of the
    interpreter: the three blocks, whitespace, the General Punctuation
    block U+2000..U+206F (dashes, quotation marks, ellipsis) and the
    numero sign U+2116; outside the three blocks these are neither
    digits nor alphanumeric and have no case. *)
Definition tabulated (c : N) : bool :=
  (c <=? 255)%N || in_range 1024 1279 c || isspace c
  || in_range 8192 8303 c || (c =? 8470)%N.

(** [starts P s]: the first character of [s], if any, satisfies [P]. *)
Definition starts (P : N -> Prop) (s : str) : Prop :=
  match s with c :: _ => P c | [] => True end.

(** The text left after the longest prefix of characters of a class. *)
Fixpoint drop_while (p : N -> bool) (s : str) : str :=
  match s with
  | c :: s' => if p c then drop_while p s' else s
  | [] => []
  end.

(** [s.strip()] *)
Definition lstrip (s : str) : str := drop_while isspace s.

Definition rstrip (s : str) : str := rev (lstrip (rev s)).

Definition strip (s : str) : str := rstrip (lstrip s).

(** [sep.join(parts)] *)
Fixpoint join (sep : str) (parts : list str) : str :=
  match parts with
  | [] => []
  | [p] => p
  | p :: rest => p ++ sep ++ join sep rest
  end.

(** ** Sequences *)

Definition len {A} (l : list A) : Z := Z.of_nat (length l).

(** [range(n)]: empty when [n <= 0]. *)
Definition range (n : Z) : list Z := map Z.of_nat (seq 0 (Z.to_nat n)).

(** Normalisation of one slice bound against the length: a negative
    bound counts from the end, and the result is clipped to [0, len]. *)
Definition clip {A} (l : list A) (a : Z) : nat :=
  if (a <? 0)%Z then Z.to_nat (Z.max 0 (a + len l))
  else Nat.min (Z.to_nat a) (length l).

(** [l[a:b]] *)
Definition slice {A} (l : list A) (a b : Z) : list A :=
  firstn (clip l b - clip l a) (skipn (clip l a) l).

End Py.

(* ================================================================== *)
(** * Regular expressions: the fragment of [re] used by the program *)
(* ================================================================== *)

Module Re.
Import Py.

(** Items of a character set: a literal, a range, [\s], [\d]. *)
Inductive item :=
| Ch (c : N)
| Rg (lo hi : N)
| Space
| Digit.

Definition charset := list item.

(** Patterns: one character of a set, the assertion [\b], a greedy
    bounded repetition [cs{lo,hi}] of a one-character set ([hi = None]
    for an open bound, as in [cs*]), a greedy optional group [(?:r)?]
    and concatenation. *)
Inductive regex :=
| One (cs : charset)
| WordB
| Repeat (lo : nat) (hi : option nat) (cs : charset)
| Maybe (r : regex)
| Then (r1 r2 : regex).

Fixpoint codepoints (lo : N) (n : nat) : list N :=
  match n with
  | O => []
  | S n' => lo :: codepoints (N.succ lo) n'
  end.

(** Under [re.IGNORECASE] a literal or range matches [c] when one of its
    code points has the same lower case as [c]. *)
Definition item_match (it : item) (c : N) : bool :=
  match it with
  | Ch x => (cp_lower x =? cp_lower c)%N
  | Rg lo hi =>
      existsb (fun y => (cp_lower y =? cp_lower c)%N)
              (codepoints lo (N.to_nat (N.succ hi - lo)))
  | Space => isspace c
  | Digit => isdecimal c
  end.

Definition cs_match (cs : charset) (c : N) : bool :=
  existsb (fun it => item_match it c) cs.

(** [\w]: alphanumeric or underscore; a position outside the text
    counts as a non-word character. *)
Definition is_word (c : option N) : bool :=
  match c with
  | Some x => isalnum x || (x =? 95)%N
  | None => false
  end.

(** The matcher is a backtracking one in continuation-passing style: the
    position is the character before it ([prev], for [\b]) and the rest
    of the text; [k] is what remains to be matched.  A greedy repetition
    first takes one more character and falls back to stopping here. *)
Section Matcher.

Variable R : Type.

Definition more (hi : option nat) : bool :=
  match hi with Some O => false | _ => true end.

Fixpoint rep (cs : charset) (lo : nat) (hi : option nat)
    (prev : option N) (s : str)
    (k : option N -> str -> option R) {struct s} : option R :=
  let stop := match lo with O => k prev s | S _ => None end in
  match s with
  | c :: s' =>
      if cs_match cs c && more hi then
        match rep cs (pred lo) (option_map pred hi) (Some c) s' k with
        | Some r => Some r
        | None => stop
        end
      else stop
  | [] => stop
  end.

Fixpoint run (r : regex) (prev : option N) (s : str)
    (k : option N -> str -> option R) {struct r} : option R :=
  match r with
  | One cs =>
      match s with
      | c :: s' => if cs_match cs c then k (Some c) s' else None
      | [] => None
      end
  | WordB =>
      if xorb (is_word prev) (is_word (List.hd_error s)) then k prev s
      else None
  | Repeat lo hi cs => rep cs lo hi prev s k
  | Maybe r1 =>
      match run r1 prev s k with
      | Some x => Some x
      | None => k prev s
      end
  | Then r1 r2 => run r1 prev s (fun prev' s' => run r2 prev' s' k)
  end.

End Matcher.

(** A match of [r] starting at the current position: the text left
    after it. *)
Definition match_at (r : regex) (prev : option N) (s : str) : option str :=
  run r prev s (fun _ rest => Some rest).

(** [re.sub] with the empty replacement and [re.IGNORECASE]: scan from the left; at
    each position not inside a match try [r]; a match is dropped, any
    other character is copied.  [skip] counts the characters of the
    current match still to be dropped. *)
Fixpoint delete (r : regex) (skip : nat) (prev : option N) (s : str) : str :=
  match s with
  | [] => []
  | c :: s' =>
      match skip with
      | S n => delete r n (Some c) s'
      | O =>
          match match_at r prev s with
          | Some rest =>
              match length s - length rest with
              | S n => delete r n (Some c) s'
              | O => c :: delete r 0 (Some c) s'
              end
          | None => c :: delete r 0 (Some c) s'
          end
      end
  end.

Definition sub_empty (r : regex) (text : str) : str := delete r 0 None text.

End Re.

(* ================================================================== *)
(** * [collections.Counter] and [dict], in insertion order *)
(* ================================================================== *)

Module Dict.
Import Py.

(** Both containers are keyed by tuples of strings and iterate in the
    order in which keys were first inserted. *)
Definition dict (V : Type) := list (tuple * V).

Section Ops.
Variable V : Type.

Fixpoint get (d : dict V) (key : tuple) : option V :=
  match d with
  | [] => None
  | (k, v) :: d' => if tuple_eqb k key then Some v else get d' key
  end.

(** [key in d] *)
Definition mem (d : dict V) (key : tuple) : bool :=
  match get d key with Some _ => true | None => false end.

(** [d[key] = v]: an existing key keeps its place. *)
Fixpoint set (d : dict V) (key : tuple) (v : V) : dict V :=
  match d with
  | [] => [(key, v)]
  | (k, w) :: d' =>
      if tuple_eqb k key then (k, v) :: d' else (k, w) :: set d' key v
  end.

(** The keys, in insertion order. *)
Definition keys (d : dict V) : list tuple := map fst d.

(** [d.setdefault(key, v)] *)
Definition setdefault (d : dict V) (key : tuple) (v : V) : dict V :=
  if mem d key then d else set d key v.

End Ops.

(** [Counter]: a dict of integer counts; a missing key reads as 0. *)
Definition Counter := dict Z.

(** [c[key] += 1] *)
Definition incr (c : Counter) (key : tuple) : Counter :=
  set c key (match get c key with Some n => n | None => 0 end + 1)%Z.

(** [sorted(items, key=itemgetter(1), reverse=True)]: a stable sort, so
    items of equal count keep their order. *)
Fixpoint insert_desc (x : tuple * Z) (l : list (tuple * Z)) :=
  match l with
  | [] => [x]
  | y :: l' =>
      if (snd x <? snd y)%Z then y :: insert_desc x l' else x :: y :: l'
  end.

Fixpoint sorted_desc (l : list (tuple * Z)) : list (tuple * Z) :=
  match l with
  | [] => []
  | x :: l' => insert_desc x (sorted_desc l')
  end.

(** [c.most_common(n)] is [heapq.nlargest(n, c.items(), key=itemgetter(1))],
    which the library documents as equivalent to
    [sorted(c.items(), key=itemgetter(1), reverse=True)[:n]]; it is empty
    for [n <= 0]. *)
Definition most_common (c : Counter) (n : Z) : list (tuple * Z) :=
  firstn (Z.to_nat n) (sorted_desc c).

(** The counter built by counting the keys of a stream one by one. *)
Definition tally (stream : list tuple) (c : Counter) : Counter :=
  fold_left incr stream c.

(** Position of the first occurrence of a key in a stream of keys. *)
Fixpoint first_pos (key : tuple) (stream : list tuple) : nat :=
  match stream with
  | [] => 0
  | k :: rest => if tuple_eqb k key then 0 else S (first_pos key rest)
  end.

(** [earlier stream a b]: the key of [a] occurs first before the key of
    [b] does. *)
Definition earlier (stream : list tuple) (a b : tuple * Z) : Prop :=
  first_pos (fst a) stream < first_pos (fst b) stream.

(** [ranked stream a b]: item [a] has a greater count than [b], or the
    same count and a key that occurs first earlier in the stream. *)
Definition ranked (stream : list tuple) (a b : tuple * Z) : Prop :=
  (snd b < snd a)%Z \/ (snd a = snd b /\ earlier stream a b).

End Dict.

(* ================================================================== *)
(** * The program *)
(* ================================================================== *)

Import Py.

(** ** Annotation provider

    A spaCy token, with the attributes the program reads.  [t_head] is
    the position index of the token's head; a root is its own head. *)
Record Token := {
  t_text : str;
  lemma_ : str;
  pos_ : str;
  dep_ : str;
  t_i : nat;
  t_head : nat;
  is_punct : bool;
  is_space : bool;
  is_alpha : bool
}.

Definition Doc := list Token.

(** [EXCLUDED_WORDS] *)
Definition EXCLUDED_WORDS : list str := [
  u "в"; u "на"; u "с"; u "по"; u "из"; u "у"; u "к"; u "от"; u "до";
  u "за"; u "о"; u "об"; u "со"; u "изо";
  u "и"; u "а"; u "но"; u "или"; u "либо"; u "что"; u "чтобы"; u "как";
  u "потому"; u "также";
  u "гост"; u "р"; u "стандарт"; u "iso"; u "ту"; u "ост"; u "снип";
  u "сп"; u "гн"; u "рд"; u "санпин" ].

(** [word in EXCLUDED_WORDS] *)
Definition excluded (word : str) : bool := existsb (str_eqb word) EXCLUDED_WORDS.

(** Outcome of a call: a value, or the exception it raises. *)
Inductive result (A : Type) :=
| Ret (a : A)
| KeyError.
Arguments KeyError {A}.

Fixpoint mapM {A B} (f : A -> result B) (l : list A) : result (list B) :=
  match l with
  | [] => Ret []
  | a :: l' =>
      match f a with
      | Ret b =>
          match mapM f l' with
          | Ret bs => Ret (b :: bs)
          | KeyError => KeyError
          end
      | KeyError => KeyError
      end
  end.

(** [remove_gost_phrases]: the pattern
    [\bгост(?:\s*[а-яa-zA-Z]*\s*\d{4,6}(?:\s*[–-]\s*\d{2,4})?)?\b] *)
Definition gost_letters : Re.charset :=
  [Re.Rg 1072 1103; Re.Rg 97 122; Re.Rg 65 90].

Definition gost_year : Re.regex :=
  Re.Then (Re.Repeat 0 None [Re.Space])
    (Re.Then (Re.One [Re.Ch 8211; Re.Ch 45])
       (Re.Then (Re.Repeat 0 None [Re.Space])
          (Re.Repeat 2 (Some 4) [Re.Digit]))).

Definition gost_number : Re.regex :=
  Re.Then (Re.Repeat 0 None [Re.Space])
    (Re.Then (Re.Repeat 0 None gost_letters)
       (Re.Then (Re.Repeat 0 None [Re.Space])
          (Re.Then (Re.Repeat 4 (Some 6) [Re.Digit])
             (Re.Maybe gost_year)))).

Definition gost_pattern : Re.regex :=
  Re.Then Re.WordB
    (Re.Then (Re.One [Re.Ch 1075])
       (Re.Then (Re.One [Re.Ch 1086])
          (Re.Then (Re.One [Re.Ch 1089])
             (Re.Then (Re.One [Re.Ch 1090])
                (Re.Then (Re.Maybe gost_number) Re.WordB))))).

Definition remove_gost_phrases (text : str) : str :=
  strip (Re.sub_empty gost_pattern text).

Section Pipeline.

(** The spaCy pipeline [nlp = spacy.load("ru_core_news_sm")]. *)
Variable nlp : str -> Doc.

(** An n-gram record [(gram, cnt, example)]. *)
Definition NgramRecord := (tuple * Z * str)%type.

(** The token filter shared by the two comprehensions of
    [extract_ngrams] and the one of [find_sentence_with_ngram]. *)
Definition kept (t : Token) : bool :=
  is_alpha t && negb (excluded (lower (lemma_ t))).

Definition doc_lemmas (doc : Doc) : list str :=
  map (fun t => lower (lemma_ t)) (filter kept doc).

Definition doc_tokens (doc : Doc) : list str :=
  map (fun t => lower (t_text t)) (filter kept doc).

(** Body of the loop over [i]. *)
Definition ngram_step (n : Z) (lemmas tokens : list str)
    (st : Dict.Counter * Dict.dict str) (i : Z)
  : Dict.Counter * Dict.dict str :=
  let '(counts, examples) := st in
  let ngram_lemmas := slice lemmas i (i + n) in
  let ngram_text := slice tokens i (i + n) in
  if negb (existsb excluded ngram_lemmas) then
    (Dict.incr counts ngram_lemmas,
     if negb (Dict.mem examples ngram_lemmas)
     then Dict.set examples ngram_lemmas (join (u " ") ngram_text)
     else examples)
  else st.

(** Body of the loop over [txt]. *)
Definition ngram_text_step (n : Z) (st : Dict.Counter * Dict.dict str)
    (txt : str) : Dict.Counter * Dict.dict str :=
  let doc := nlp txt in
  let lemmas := doc_lemmas doc in
  let tokens := doc_tokens doc in
  fold_left (ngram_step n lemmas tokens) (range (len lemmas - n + 1)) st.

Definition extract_ngrams (texts : list str) (n top_k : Z)
  : result (list NgramRecord) :=
  let '(counts, examples) := fold_left (ngram_text_step n) texts ([], []) in
  mapM (fun '(gram, cnt) =>
          match Dict.get examples gram with
          | Some ex => Ret (gram, cnt, ex)
          | None => KeyError
          end)
       (Dict.most_common counts top_k).

(** [is_real_sentence] *)
Definition is_real_sentence (text : str) : bool :=
  let doc := nlp text in
  let tokens := filter (fun t => negb (is_punct t) && negb (is_space t)) doc in
  (3 <=? len tokens)%Z && existsb (fun t => str_eqb (pos_ t) (u "VERB")) tokens.

(** [children.sort(key=lambda t: t.i)], a stable sort. *)
Fixpoint insert_by_i (t : Token) (l : list Token) : list Token :=
  match l with
  | [] => [t]
  | t' :: l' =>
      if t_i t' <=? t_i t then t' :: insert_by_i t l' else t :: t' :: l'
  end.

Definition sort_by_i (l : list Token) : list Token :=
  fold_left (fun acc t => insert_by_i t acc) l [].

(** [root_token.children]: the tokens of the parse, in order, whose head
    is the root, the root itself left out. *)
Definition children (doc : Doc) (root_token : Token) : list Token :=
  filter (fun tok => (t_head tok =? t_i root_token)
                     && negb (t_i tok =? t_i root_token)) doc.

Definition excluded_deps : list str := [u "det"; u "case"; u "punct"].

(** [clause_dep_signature]; the parse owning the root is explicit. *)
Definition clause_dep_signature (doc : Doc) (root_token : Token) : tuple :=
  let kids :=
    sort_by_i (filter (fun tok => negb (is_punct tok) && negb (is_space tok))
                      (children doc root_token)) in
  dep_ root_token ::
  map dep_ (filter (fun child => negb (existsb (str_eqb (dep_ child)) excluded_deps))
                   kids).

(** A structure record [(sig, freq, sent, doc)]. *)
Definition StructureRecord := (tuple * Z * str * Doc)%type.

Definition is_root (t : Token) : bool :=
  str_eqb (dep_ t) (u "ROOT") && negb (is_punct t).

(** Body of the loop over [root]. *)
Definition struct_step (sent : str) (doc : Doc)
    (st : Dict.Counter * Dict.dict (str * Doc)) (root : Token)
  : Dict.Counter * Dict.dict (str * Doc) :=
  let '(counter, examples) := st in
  let sig := clause_dep_signature doc root in
  if (match sig with [] => true | _ => false end) || (len sig <? 2)%Z then st
  else (Dict.incr counter sig, Dict.setdefault examples sig (sent, doc)).

(** Body of the loop over [sent]. *)
Definition struct_sent_step (st : Dict.Counter * Dict.dict (str * Doc))
    (sent0 : str) : Dict.Counter * Dict.dict (str * Doc) :=
  let sent := remove_gost_phrases sent0 in
  let doc := nlp sent in
  fold_left (struct_step sent doc) (filter is_root doc) st.

Definition top_syntactic_structures (sentences : list str) (top_n : Z)
  : result (list StructureRecord) :=
  let '(counter, examples) := fold_left struct_sent_step sentences ([], []) in
  mapM (fun '(sig, freq) =>
          match Dict.get examples sig with
          | Some (sent, doc) => Ret (sig, freq, sent, doc)
          | None => KeyError
          end)
       (Dict.most_common counter top_n).

(** [find_sentence_with_ngram]; [None] is Python's [None]. *)
Fixpoint find_sentence_with_ngram (sentences : list str) (ngram_lemmas : tuple)
  : option str :=
  let n := len ngram_lemmas in
  match sentences with
  | [] => None
  | sent0 :: rest =>
      let sent := remove_gost_phrases sent0 in
      let lemmas := doc_lemmas (nlp sent) in
      if existsb (fun i => tuple_eqb (slice lemmas i (i + n)) ngram_lemmas)
                 (range (len lemmas - n + 1))
      then Some sent
      else find_sentence_with_ngram rest ngram_lemmas
  end.

End Pipeline.

(* ================================================================== *)
(** * Streams of counted keys and variants of the miners *)
(* ================================================================== *)

Section Streams.
Variable nlp : str -> Doc.

(** The keys counted for one sentence by [extract_ngrams], in the order
    of the loop over [i]. *)
Definition windows (n : Z) (lemmas : list str) : list tuple :=
  filter (fun gram => negb (existsb excluded gram))
         (map (fun i => slice lemmas i (i + n)) (range (len lemmas - n + 1))).

(** The keys counted for the corpus, in corpus order. *)
Definition ngram_stream (n : Z) (texts : list str) : list tuple :=
  flat_map (fun txt => windows n (doc_lemmas (nlp txt))) texts.

(** The test [not sig or len(sig) < 2]. *)
Definition too_short (sig : tuple) : bool :=
  (match sig with [] => true | _ => false end) || (len sig <? 2)%Z.

(** The signatures counted for one parse, in the order of its roots. *)
Definition doc_signatures (doc : Doc) : list tuple :=
  filter (fun sig => negb (too_short sig))
         (map (clause_dep_signature doc) (filter is_root doc)).

(** The signatures counted for the corpus, in corpus order. *)
Definition sig_stream (sentences : list str) : list tuple :=
  flat_map (fun sent => doc_signatures (nlp (remove_gost_phrases sent)))
           sentences.

(** [extract_ngrams] with the test of line 76 removed: every window is
    counted. *)
Definition ngram_step_unchecked (n : Z) (lemmas tokens : list str)
    (st : Dict.Counter * Dict.dict str) (i : Z)
  : Dict.Counter * Dict.dict str :=
  let '(counts, examples) := st in
  let ngram_lemmas := slice lemmas i (i + n) in
  let ngram_text := slice tokens i (i + n) in
  (Dict.incr counts ngram_lemmas,
   if negb (Dict.mem examples ngram_lemmas)
   then Dict.set examples ngram_lemmas (join (u " ") ngram_text)
   else examples).

Definition ngram_text_step_unchecked (n : Z)
    (st : Dict.Counter * Dict.dict str) (txt : str)
  : Dict.Counter * Dict.dict str :=
  let doc := nlp txt in
  let lemmas := doc_lemmas doc in
  let tokens := doc_tokens doc in
  fold_left (ngram_step_unchecked n lemmas tokens)
            (range (len lemmas - n + 1)) st.

Definition extract_ngrams_unchecked (texts : list str) (n top_k : Z)
  : result (list NgramRecord) :=
  let '(counts, examples) :=
    fold_left (ngram_text_step_unchecked n) texts ([], []) in
  mapM (fun '(gram, cnt) =>
          match Dict.get examples gram with
          | Some ex => Ret (gram, cnt, ex)
          | None => KeyError
          end)
       (Dict.most_common counts top_k).

End Streams.

(** [key] occurs in [lemmas] as a contiguous window. *)
Definition window_in (key lemmas : tuple) : Prop :=
  exists pre post, lemmas = pre ++ key ++ post.

(** Key and count of a record. *)
Definition ngram_item (r : NgramRecord) : tuple * Z := fst r.
Definition struct_item (r : StructureRecord) : tuple * Z := fst (fst r).

(** The filtered lemma sequence that [find_sentence_with_ngram] scans
    for a sentence of the corpus. *)
Definition located_lemmas (nlp : str -> Doc) (sent : str) : tuple :=
  doc_lemmas (nlp (remove_gost_phrases sent)).

(** The tokens [is_real_sentence] counts. *)
Definition content (doc : Doc) : list Token :=
  filter (fun t => negb (is_punct t) && negb (is_space t)) doc.

(** Every counted key has an example. *)
Definition covered {V} (st : Dict.Counter * Dict.dict V) : Prop :=
  forall k, In k (Dict.keys (fst st)) -> In k (Dict.keys (snd st)).

(* ================================================================== *)
(** * Regulatory phrases *)
(* ================================================================== *)

(** [all p s]: every character of [s] is in the class [p]. *)
Definition all (p : N -> bool) (s : str) : Prop :=
  Forall (fun c => p c = true) s.

(** The classes of the pattern: [[а-яa-zA-Z]] and [[–-]], ignoring case. *)
Definition is_letter (c : N) : bool := Re.cs_match gost_letters c.

(** Latin and Russian letters, the code points of [[а-яa-zA-Z]] in
    either case. *)
Definition letter_code (c : N) : bool :=
  in_range 65 90 c || in_range 97 122 c || in_range 1040 1103 c.

(** The character before the position reached after reading [xs]. *)
Definition after (prev : option N) (xs : str) : option N :=
  fold_left (fun _ c => Some c) xs prev.





(** No character of [pre] starts the word гост. *)
Definition no_gost_start (pre : str) : Prop :=
  Forall (fun c => cp_lower c <> 1075%N) pre.

(** [prefix_ci w s]: [s] starts with the word [w], ignoring case. *)
Fixpoint prefix_ci (w s : str) : bool :=
  match w, s with
  | [], _ => true
  | x :: w', c :: s' => (cp_lower x =? cp_lower c)%N && prefix_ci w' s'
  | _ :: _, [] => false
  end.

(** [gost_free pre rest]: in the text [pre ++ rest] the word гост, in
    any case, starts at no position of [pre]. *)
Fixpoint gost_free (pre rest : str) : Prop :=
  match pre with
  | [] => True
  | c :: pre' =>
      prefix_ci (u "гост") (c :: pre' ++ rest) = false /\ gost_free pre' rest
  end.


(* ================================================================== *)
(** * Frequencies and first occurrences *)
(* ================================================================== *)

(** Number of occurrences of a key in a stream of keys. *)
Fixpoint occurrences (key : tuple) (stream : list tuple) : Z :=
  match stream with
  | [] => 0
  | k :: rest =>
      ((if tuple_eqb k key then 1 else 0) + occurrences key rest)%Z
  end.

(** The distinct keys of a stream, in the order of their first
    occurrences. *)
Fixpoint distinct (seen : list tuple) (stream : list tuple) : list tuple :=
  match stream with
  | [] => []
  | k :: rest =>
      if existsb (tuple_eqb k) seen then distinct seen rest
      else k :: distinct (seen ++ [k]) rest
  end.

(** [ranking_of stream items]: [items] lists every key counted in
    [stream] exactly once, each with the number of its occurrences,
    ordered by descending count and, among equal counts, by first
    occurrence in the stream. *)
Definition ranking_of (stream : list tuple) (items : list (tuple * Z))
  : Prop :=
  Permutation (map fst items) (distinct [] stream) /\
  Forall (fun it => snd it = occurrences (fst it) stream) items /\
  StronglySorted (Dict.ranked stream) items.

(** [first_bindings occ d]: the dictionary obtained from [d] by storing,
    for each pair of [occ] in turn, its value under its key unless the
    key is present, as [if key not in d: d[key] = value] and
    [d.setdefault(key, value)] do. *)
Definition first_bindings {V} (occ : list (tuple * V)) (d : Dict.dict V)
  : Dict.dict V :=
  fold_left (fun d p => if negb (Dict.mem d (fst p))
                        then Dict.set d (fst p) (snd p) else d)
            occ d.

Section Occurrences.
Variable nlp : str -> Doc.

(** The counted windows of one sentence, each with its surface text. *)
Definition window_examples (n : Z) (lemmas tokens : list str)
  : list (tuple * str) :=
  filter (fun p => negb (existsb excluded (fst p)))
         (map (fun i => (slice lemmas i (i + n),
                         join (u " ") (slice tokens i (i + n))))
              (range (len lemmas - n + 1))).

(** The counted windows of the corpus with their surface texts, in
    corpus order. *)
Definition ngram_occurrences (n : Z) (texts : list str) : list (tuple * str) :=
  flat_map (fun txt => window_examples n (doc_lemmas (nlp txt))
                                       (doc_tokens (nlp txt))) texts.

(** The counted signatures of the corpus, each with the stripped
    sentence and the parse it comes from, in corpus order. *)
Definition sig_occurrences (sentences : list str)
  : list (tuple * (str * Doc)) :=
  flat_map (fun sent0 =>
              let sent := remove_gost_phrases sent0 in
              map (fun sig => (sig, (sent, nlp sent)))
                  (doc_signatures (nlp sent)))
           sentences.

End Occurrences.

Section EmptyWindows.
Variable nlp : str -> Doc.

(** The number of windows of length 0: one more than the number of
    filtered lemmas, for each sentence. *)
Definition empty_windows (texts : list str) : Z :=
  fold_right Z.add 0%Z (map (fun txt => len (doc_lemmas (nlp txt)) + 1)%Z texts).

End EmptyWindows.

(* ================================================================== *)
(** * Statistics and labels *)
(* ================================================================== *)

Section Statistics.
Variable nlp : str -> Doc.

(** [basic_stats]: the number of tokens that are neither punctuation
    nor whitespace, and the number of characters. *)
Definition basic_stats (text : str) : Z * Z :=
  let doc := nlp text in
  let tokens := filter (fun t => negb (is_punct t) && negb (is_space t)) doc in
  (len tokens, len text).

End Statistics.

(** [sig_to_str]: ["+".join(sig)]. *)
Definition sig_to_str (sig : tuple) : str := join (u "+") sig.

(** [subseq s t]: [s] is [t] with some characters deleted. *)
Inductive subseq {A : Type} : list A -> list A -> Prop :=
| subseq_nil : subseq [] []
| subseq_drop (x : A) (s t : list A) : subseq s t -> subseq s (x :: t)
| subseq_keep (x : A) (s t : list A) : subseq s t -> subseq (x :: s) (x :: t).

(** A label without the separator "+". *)
Definition plus_free (label : str) : Prop := ~ In 43%N label.


(* ================================================================== *)
(** * Text cleaning *)
(* ================================================================== *)

(** [trimmed s]: [s] neither starts nor ends with whitespace. *)
Definition trimmed (s : str) : Prop :=
  starts (fun c => isspace c = false) s /\
  starts (fun c => isspace c = false) (rev s).


(** * Regular expressions without flags, with groups and replacement *)

Module Rx.

(** A character set, possibly complemented ([[^...]], [\S]). *)
Record cset := { negated : bool; items : list Re.item }.

(** Without [re.IGNORECASE] a literal matches itself only. *)
Definition item_in (it : Re.item) (c : N) : bool :=
  match it with
  | Re.Ch x => (x =? c)%N
  | Re.Rg lo hi => in_range lo hi c
  | Re.Space => isspace c
  | Re.Digit => isdecimal c
  end.

Definition in_cset (cs : cset) (c : N) : bool :=
  xorb (negated cs) (existsb (fun it => item_in it c) (items cs)).

(** [only items] is [[items]], [none_of items] is [[^items]]. *)
Definition only (its : list Re.item) : cset := {| negated := false; items := its |}.
Definition none_of (its : list Re.item) : cset := {| negated := true; items := its |}.

(** Patterns: a literal string, one character of a set, [\b], a greedy
    repetition of a one-character set, a greedy optional group
    [(?:r)?], concatenation, alternation [r1|r2] and the capturing
    group number 1. *)
Inductive regex :=
| Str (lit : str)
| One (cs : cset)
| WordB
| Repeat (lo : nat) (hi : option nat) (cs : cset)
| Maybe (r : regex)
| Then (r1 r2 : regex)
| Alt (r1 r2 : regex)
| Group (r : regex).

Section Matcher.
Variable R : Type.

(** The continuation receives the character before the position, the
    rest of the text and the text captured by the group so far. *)
Definition cont := option N -> str -> option str -> option R.

Fixpoint lit (l : str) (prev : option N) (s : str) (cap : option str)
    (k : cont) {struct l} : option R :=
  match l with
  | [] => k prev s cap
  | x :: l' =>
      match s with
      | c :: s' => if (x =? c)%N then lit l' (Some c) s' cap k else None
      | [] => None
      end
  end.

Fixpoint rep (cs : cset) (lo : nat) (hi : option nat)
    (prev : option N) (s : str) (cap : option str) (k : cont)
    {struct s} : option R :=
  let stop := match lo with O => k prev s cap | S _ => None end in
  match s with
  | c :: s' =>
      if in_cset cs c && Re.more hi then
        match rep cs (pred lo) (option_map pred hi) (Some c) s' cap k with
        | Some r => Some r
        | None => stop
        end
      else stop
  | [] => stop
  end.

Fixpoint run (r : regex) (prev : option N) (s : str) (cap : option str)
    (k : cont) {struct r} : option R :=
  match r with
  | Str l => lit l prev s cap k
  | One cs =>
      match s with
      | c :: s' => if in_cset cs c then k (Some c) s' cap else None
      | [] => None
      end
  | WordB =>
      if xorb (Re.is_word prev) (Re.is_word (List.hd_error s)) then k prev s cap
      else None
  | Repeat lo hi cs => rep cs lo hi prev s cap k
  | Maybe r1 =>
      match run r1 prev s cap k with
      | Some x => Some x
      | None => k prev s cap
      end
  | Then r1 r2 => run r1 prev s cap (fun prev' s' cap' => run r2 prev' s' cap' k)
  | Alt r1 r2 =>
      match run r1 prev s cap k with
      | Some x => Some x
      | None => run r2 prev s cap k
      end
  | Group r1 =>
      run r1 prev s cap
          (fun prev' s' _ => k prev' s' (Some (firstn (length s - length s') s)))
  end.

End Matcher.

(** A match at the current position: the text left after it and the
    text captured by the group. *)
Definition match_at (r : regex) (prev : option N) (s : str)
  : option (str * option str) :=
  run r prev s None (fun _ rest cap => Some (rest, cap)).

(** A replacement template: text and references [\1]. *)
Inductive piece :=
| Text (s : str)
| Group1.

Definition expand (tpl : list piece) (cap : option str) : str :=
  flat_map (fun p => match p with
                     | Text s => s
                     | Group1 => match cap with Some g => g | None => [] end
                     end) tpl.

(** [re.sub(r, tpl, text)]: scan from the left; a match is replaced by
    the expanded template and the scan goes on behind it; an empty
    match is replaced too and the character after it is copied. *)
Fixpoint scan (r : regex) (tpl : list piece) (skip : nat) (prev : option N)
    (s : str) : str :=
  match s with
  | [] =>
      match skip with
      | O => match match_at r prev [] with
             | Some (_, cap) => expand tpl cap
             | None => []
             end
      | S _ => []
      end
  | c :: s' =>
      match skip with
      | S n => scan r tpl n (Some c) s'
      | O =>
          match match_at r prev s with
          | Some (rest, cap) =>
              match length s - length rest with
              | S n => expand tpl cap ++ scan r tpl n (Some c) s'
              | O => expand tpl cap ++ c :: scan r tpl 0 (Some c) s'
              end
          | None => c :: scan r tpl 0 (Some c) s'
          end
      end
  end.

Definition sub (r : regex) (tpl : list piece) (text : str) : str :=
  scan r tpl 0 None text.

End Rx.

(** [clean_links], for a text that is a [str].  The three patterns are
    [\(?\b(?:https?://|www\.)\S+\b\)?],
    [=HYPERLINK\(\"[^\"]+\",\"([^\"]+)\"\)] and [\(\s*\)]. *)
Definition url_scheme : Rx.regex :=
  Rx.Alt (Rx.Then (Rx.Str (u "http"))
            (Rx.Then (Rx.Maybe (Rx.One (Rx.only [Re.Ch 115])))
                     (Rx.Str (u "://"))))
         (Rx.Str (u "www.")).

Definition url_tail : Rx.regex :=
  Rx.Then (Rx.Repeat 1 None (Rx.none_of [Re.Space]))
    (Rx.Then Rx.WordB (Rx.Maybe (Rx.One (Rx.only [Re.Ch 41])))).

Definition url_pattern : Rx.regex :=
  Rx.Then (Rx.Maybe (Rx.One (Rx.only [Re.Ch 40])))
    (Rx.Then Rx.WordB (Rx.Then url_scheme url_tail)).

Definition hyperlink_open : str := u "=HYPERLINK(" ++ [34%N].
Definition hyperlink_mid : str := [34%N; 44%N; 34%N].
Definition hyperlink_close : str := [34%N; 41%N].

Definition hyperlink_pattern : Rx.regex :=
  Rx.Then (Rx.Str hyperlink_open)
    (Rx.Then (Rx.Repeat 1 None (Rx.none_of [Re.Ch 34]))
       (Rx.Then (Rx.Str hyperlink_mid)
          (Rx.Then (Rx.Group (Rx.Repeat 1 None (Rx.none_of [Re.Ch 34])))
                   (Rx.Str hyperlink_close)))).

Definition empty_parens : Rx.regex :=
  Rx.Then (Rx.One (Rx.only [Re.Ch 40]))
    (Rx.Then (Rx.Repeat 0 None (Rx.only [Re.Space]))
             (Rx.One (Rx.only [Re.Ch 41]))).

Definition clean_links (text : str) : str :=
  let text := Rx.sub url_pattern [] text in
  let text := Rx.sub hyperlink_pattern [Rx.Group1] text in
  strip (Rx.sub empty_parens [] text).

(** [remove_brackets], for a text that is a [str].  The four patterns
    are [\([^)]*\)], [\[[^\]]*\]], [[\(\)\[\]]] and [\s+]. *)
Definition round_brackets : Rx.regex :=
  Rx.Then (Rx.One (Rx.only [Re.Ch 40]))
    (Rx.Then (Rx.Repeat 0 None (Rx.none_of [Re.Ch 41]))
             (Rx.One (Rx.only [Re.Ch 41]))).

Definition square_brackets : Rx.regex :=
  Rx.Then (Rx.One (Rx.only [Re.Ch 91]))
    (Rx.Then (Rx.Repeat 0 None (Rx.none_of [Re.Ch 93]))
             (Rx.One (Rx.only [Re.Ch 93]))).

Definition any_bracket : Rx.cset :=
  Rx.only [Re.Ch 40; Re.Ch 41; Re.Ch 91; Re.Ch 93].

Definition whitespace_run : Rx.regex := Rx.Repeat 1 None (Rx.only [Re.Space]).

Definition remove_brackets (text : str) : str :=
  let text := Rx.sub round_brackets [] text in
  let text := Rx.sub square_brackets [] text in
  let text := Rx.sub (Rx.One any_bracket) [] text in
  strip (Rx.sub whitespace_run [Rx.Text (u " ")] text).

(** What a successful run has read is a prefix of the text, and the
    group, if it was set on the way, holds a part of that prefix. *)
Definition reads (R : Type) (s : str) (cap : option str) (k : Rx.cont R)
    (x : R) : Prop :=
  exists span rest prev' cap',
    s = span ++ rest /\ k prev' rest cap' = Some x /\
    (cap' = cap \/ exists a g b, span = a ++ g ++ b /\ cap' = Some g).


(** [unmatched r pre s]: the pattern matches at no position of [pre]
    in the text [pre ++ s]. *)
Definition unmatched (r : Rx.regex) (pre s : str) : Prop :=
  forall a c b prev, pre = a ++ c :: b -> Rx.match_at r prev (c :: b ++ s) = None.


(** [single_spaced s]: every whitespace character of [s] is a space
    U+0020 and is not followed by whitespace. *)
Fixpoint single_spaced (s : str) : Prop :=
  match s with
  | [] => True
  | c :: s' =>
      (isspace c = true ->
       c = 32%N /\ starts (fun d => isspace d = false) s')
      /\ single_spaced s'
  end.

(** One of the four bracket characters. *)
Definition is_bracket (c : N) : bool := Rx.in_cset any_bracket c.

(** A character that starts none of the patterns of [clean_links]:
    neither "(", "=", "h" nor "w". *)
Definition plain (c : N) : Prop :=
  c <> 40%N /\ c <> 61%N /\ c <> 104%N /\ c <> 119%N.

(** The Excel formula [=HYPERLINK("url","label")]. *)
Definition hyperlink (url label : str) : str :=
  hyperlink_open ++ url ++ hyperlink_mid ++ label ++ hyperlink_close.

(** The three ways a URL may start. *)
Definition is_scheme (s : str) : Prop :=
  s = u "http://" \/ s = u "https://" \/ s = u "www.".


(* ================================================================== *)
(** * Fixtures: a small annotation provider *)
(* ================================================================== *)

Module Fixture.

Definition word (text lemma pos dep : string) (i head : nat) : Token :=
  {| t_text := u text; lemma_ := u lemma; pos_ := u pos; dep_ := u dep;
     t_i := i; t_head := head;
     is_punct := false; is_space := false; is_alpha := true |}.

Definition number (text : string) (i head : nat) : Token :=
  {| t_text := u text; lemma_ := u text; pos_ := u "NUM"; dep_ := u "nummod";
     t_i := i; t_head := head;
     is_punct := false; is_space := false; is_alpha := false |}.

Definition period (i head : nat) : Token :=
  {| t_text := u "."; lemma_ := u "."; pos_ := u "PUNCT"; dep_ := u "punct";
     t_i := i; t_head := head;
     is_punct := true; is_space := false; is_alpha := false |}.

(** A provider given by a table of parses; any other text has the empty
    parse. *)
Fixpoint table_nlp (table : list (str * Doc)) (text : str) : Doc :=
  match table with
  | [] => []
  | (t, doc) :: rest => if str_eqb t text then doc else table_nlp rest text
  end.

Definition opens : str := u "Оператор открывает клапан.".
Definition closes : str := u "Оператор закрывает клапан.".
Definition checks : str := u "Инженер проверяет насос.".
Definition iso_rule : str := u "ГОСТ ИСО 9001 регулирует процесс.".
Definition gost_rule : str := u "ГОСТ Р 57528-2016 регулирует процесс.".
Definition rule : str := u "регулирует процесс.".

Definition parses : list (str * Doc) := [
  (opens,
   [word "Оператор" "оператор" "NOUN" "nsubj" 0 1;
    word "открывает" "открывать" "VERB" "ROOT" 1 1;
    word "клапан" "клапан" "NOUN" "obj" 2 1;
    period 3 1]);
  (closes,
   [word "Оператор" "оператор" "NOUN" "nsubj" 0 1;
    word "закрывает" "закрывать" "VERB" "ROOT" 1 1;
    word "клапан" "клапан" "NOUN" "obj" 2 1;
    period 3 1]);
  (checks,
   [word "Инженер" "инженер" "NOUN" "nsubj" 0 1;
    word "проверяет" "проверять" "VERB" "ROOT" 1 1;
    word "насос" "насос" "NOUN" "obj" 2 1;
    period 3 1]);
  (iso_rule,
   [word "ГОСТ" "гост" "PROPN" "nsubj" 0 3;
    word "ИСО" "исо" "PROPN" "appos" 1 0;
    number "9001" 2 0;
    word "регулирует" "регулировать" "VERB" "ROOT" 3 3;
    word "процесс" "процесс" "NOUN" "obj" 4 3;
    period 5 3]);
  (rule,
   [word "регулирует" "регулировать" "VERB" "ROOT" 0 0;
    word "процесс" "процесс" "NOUN" "obj" 1 0;
    period 2 0]) ].

Definition nlp : str -> Doc := table_nlp parses.

(** The parse of "Да.": a root without children. *)
Definition yes : Token := word "Да" "да" "PART" "ROOT" 0 0.
Definition yes_doc : Doc := [yes; period 1 0].

Definition corpus : list str := [opens; closes; checks].

End Fixture.

(* ================================================================== *)
(** * Facts about the runtime model *)
(* ================================================================== *)

Module PyFacts.
Import Py.

Lemma str_eqb_eq (a b : str) : str_eqb a b = true <-> a = b.
Proof.
  unfold str_eqb. destruct (list_eq_dec N.eq_dec a b); split; congruence.
Qed.

Lemma tuple_eqb_eq (a b : tuple) : tuple_eqb a b = true <-> a = b.
Proof.
  unfold tuple_eqb.
  destruct (list_eq_dec (list_eq_dec N.eq_dec) a b); split; congruence.
Qed.

Lemma tuple_eqb_refl (a : tuple) : tuple_eqb a a = true.
Proof. now apply tuple_eqb_eq. Qed.

Lemma tuple_eqb_neq (a b : tuple) : tuple_eqb a b = false <-> a <> b.
Proof.
  unfold tuple_eqb.
  destruct (list_eq_dec (list_eq_dec N.eq_dec) a b); split; congruence.
Qed.

Lemma len_nonneg {A} (l : list A) : (0 <= len l)%Z.
Proof. unfold len. lia. Qed.

Lemma clip_le {A} (l : list A) (a : Z) : clip l a <= length l.
Proof.
  unfold clip, len. destruct (a <? 0)%Z eqn:E; [apply Z.ltb_lt in E|]; lia.
Qed.

Lemma clip_nonneg {A} (l : list A) (a : Z) :
  (0 <= a)%Z -> clip l a = Nat.min (Z.to_nat a) (length l).
Proof.
  intros H. unfold clip. destruct (a <? 0)%Z eqn:E; [apply Z.ltb_lt in E; lia|].
  reflexivity.
Qed.

(** A slice is a contiguous part of the list. *)
Lemma slice_window {A} (l : list A) (a b : Z) :
  exists pre post, l = pre ++ slice l a b ++ post.
Proof.
  unfold slice. set (lo := clip l a). set (k := clip l b - lo).
  exists (firstn lo l), (skipn k (skipn lo l)).
  now rewrite (firstn_skipn k), (firstn_skipn lo).
Qed.

Lemma slice_In {A} (l : list A) (a b : Z) (x : A) :
  In x (slice l a b) -> In x l.
Proof.
  intros H. destruct (slice_window l a b) as (pre & post & E).
  rewrite E. apply in_or_app. right. apply in_or_app. now left.
Qed.

(** The window of length [length key] starting after [pre]. *)
Lemma slice_app {A} (pre key post : list A) :
  slice (pre ++ key ++ post) (len pre) (len pre + len key) = key.
Proof.
  unfold slice. rewrite !clip_nonneg by (unfold len; lia).
  unfold len. rewrite !length_app.
  replace (Nat.min (Z.to_nat (Z.of_nat (length pre))) _) with (length pre) by lia.
  replace (Nat.min _ _ - length pre) with (length key) by lia.
  rewrite skipn_app, skipn_all, Nat.sub_diag. simpl.
  rewrite firstn_app, firstn_all, Nat.sub_diag. simpl. apply app_nil_r.
Qed.

Lemma slice_length_nonneg {A} (l : list A) (i n : Z) :
  (0 <= i)%Z -> (0 <= n)%Z -> (i + n <= len l)%Z ->
  length (slice l i (i + n)) = Z.to_nat n.
Proof.
  intros Hi Hn Hb. unfold slice. rewrite !clip_nonneg by lia.
  unfold len in Hb. rewrite length_firstn, length_skipn. lia.
Qed.

Lemma range_In (n i : Z) : In i (range n) <-> (0 <= i < n)%Z.
Proof.
  unfold range. rewrite in_map_iff. split.
  - intros (k & <- & Hk). apply in_seq in Hk. lia.
  - intros H. exists (Z.to_nat i). split; [lia|]. apply in_seq. lia.
Qed.

Lemma range_pos (n : Z) : (0 < n)%Z -> exists tl, range n = 0%Z :: tl.
Proof.
  intros H. unfold range. destruct (Z.to_nat n) eqn:E; [lia|].
  simpl. eauto.
Qed.

End PyFacts.

Module DictFacts.
Import Py PyFacts Dict.

Section Ops.
Variable V : Type.
Implicit Types (d : dict V) (k : tuple) (v : V).

Lemma get_set_same d k v : get (set d k v) k = Some v.
Proof.
  induction d as [|[k' w] d IH]; simpl.
  - now rewrite tuple_eqb_refl.
  - destruct (tuple_eqb k' k) eqn:E; simpl; rewrite E; auto.
Qed.

Lemma get_set_other d k k' v : k <> k' -> get (set d k v) k' = get d k'.
Proof.
  intros Hne. induction d as [|[k0 w] d IH]; simpl.
  - apply tuple_eqb_neq in Hne. now rewrite Hne.
  - destruct (tuple_eqb k0 k) eqn:E; simpl.
    + apply tuple_eqb_eq in E. subst k0.
      apply tuple_eqb_neq in Hne. now rewrite Hne.
    + now rewrite IH.
Qed.

Lemma get_In_keys d k : get d k <> None <-> In k (keys d).
Proof.
  induction d as [|[k' w] d IH]; simpl.
  - split; [congruence | tauto].
  - destruct (tuple_eqb k' k) eqn:E.
    + apply tuple_eqb_eq in E. split; [auto | congruence].
    + apply tuple_eqb_neq in E. rewrite IH. tauto.
Qed.

Lemma mem_In_keys d k : mem d k = true <-> In k (keys d).
Proof.
  unfold mem. rewrite <- get_In_keys.
  destruct (get d k); split; congruence.
Qed.

(** Assignment keeps the insertion order and appends a new key. *)
Lemma keys_set d k v :
  keys (set d k v) = if mem d k then keys d else keys d ++ [k].
Proof.
  unfold mem, keys. induction d as [|[k' w] d IH]; simpl; [reflexivity|].
  destruct (tuple_eqb k' k) eqn:E; simpl; [reflexivity|].
  rewrite IH. now destruct (get d k).
Qed.

End Ops.

Lemma keys_incr (c : Counter) (k : tuple) :
  keys (incr c k) = if mem c k then keys c else keys c ++ [k].
Proof. apply keys_set. Qed.

Lemma insert_desc_In x y l : In y (insert_desc x l) <-> y = x \/ In y l.
Proof.
  induction l as [|z l IH]; simpl; [intuition|].
  destruct (snd x <? snd z)%Z; simpl; rewrite ?IH; intuition.
Qed.

Lemma sorted_desc_In y l : In y (sorted_desc l) <-> In y l.
Proof.
  induction l as [|x l IH]; simpl; [tauto|].
  rewrite insert_desc_In, IH. intuition.
Qed.

Lemma most_common_In c n y : In y (most_common c n) -> In y c.
Proof.
  unfold most_common. intros H. apply sorted_desc_In.
  rewrite <- (firstn_skipn (Z.to_nat n)). apply in_or_app. now left.
Qed.

Lemma most_common_nil n : most_common [] n = [].
Proof. unfold most_common. simpl. apply firstn_nil. Qed.

(** ** Ranking *)

Lemma insert_desc_sorted stream x l :
  StronglySorted (ranked stream) l ->
  Forall (earlier stream x) l ->
  StronglySorted (ranked stream) (insert_desc x l).
Proof.
  induction l as [|y l IH]; intros Hs Hx; simpl.
  - constructor; constructor.
  - inversion Hs as [|? ? Hs' Hy]; subst. inversion Hx as [|? ? Hxy Hx']; subst.
    destruct (snd x <? snd y)%Z eqn:E.
    + apply Z.ltb_lt in E. constructor; [now apply IH|].
      apply Forall_forall. intros z Hz. apply insert_desc_In in Hz.
      destruct Hz as [->|Hz]; [now left|].
      now apply (proj1 (Forall_forall _ _) Hy).
    + apply Z.ltb_ge in E. constructor; [assumption|].
      constructor.
      * unfold ranked, earlier in *. lia.
      * apply Forall_forall. intros z Hz.
        pose proof (proj1 (Forall_forall _ _) Hy z Hz) as Hyz.
        pose proof (proj1 (Forall_forall _ _) Hx' z Hz) as Hxz.
        unfold ranked, earlier in *. lia.
Qed.

Lemma sorted_desc_sorted stream l :
  StronglySorted (earlier stream) l ->
  StronglySorted (ranked stream) (sorted_desc l).
Proof.
  induction 1 as [|x l Hs IH Hx]; simpl; [constructor|].
  apply insert_desc_sorted; [assumption|].
  apply Forall_forall. intros z Hz. rewrite sorted_desc_In in Hz.
  now apply (proj1 (Forall_forall _ _) Hx).
Qed.

Lemma StronglySorted_firstn {A} (R : A -> A -> Prop) n l :
  StronglySorted R l -> StronglySorted R (firstn n l).
Proof.
  intros H. revert n. induction H as [|x l Hs IH Hx]; intros n.
  - rewrite firstn_nil. constructor.
  - destruct n as [|n]; simpl; constructor; [apply IH|].
    apply Forall_forall. intros z Hz.
    apply (proj1 (Forall_forall _ _) Hx).
    rewrite <- (firstn_skipn n l). apply in_or_app. now left.
Qed.

End DictFacts.

Module StreamFacts.
Import Py PyFacts Dict DictFacts.

Lemma first_pos_lt k s : In k s -> first_pos k s < length s.
Proof.
  induction s as [|x s IH]; simpl; [tauto|].
  intros H. destruct (tuple_eqb x k) eqn:E; [lia|].
  apply tuple_eqb_neq in E. destruct H as [H|H]; [congruence|].
  specialize (IH H). lia.
Qed.

Lemma first_pos_app_in k s t : In k s -> first_pos k (s ++ t) = first_pos k s.
Proof.
  induction s as [|x s IH]; simpl; [tauto|].
  intros H. destruct (tuple_eqb x k) eqn:E; [reflexivity|].
  apply tuple_eqb_neq in E. destruct H as [H|H]; [congruence|].
  now rewrite IH.
Qed.

Lemma first_pos_app_new k s : ~ In k s -> first_pos k (s ++ [k]) = length s.
Proof.
  induction s as [|x s IH]; simpl; intros H.
  - now rewrite tuple_eqb_refl.
  - destruct (tuple_eqb x k) eqn:E.
    + apply tuple_eqb_eq in E. tauto.
    + rewrite IH; tauto.
Qed.

Lemma StronglySorted_snoc {A} (R : A -> A -> Prop) l x :
  StronglySorted R l -> Forall (fun a => R a x) l ->
  StronglySorted R (l ++ [x]).
Proof.
  induction 1 as [|a l Hs IH Ha]; intros Hx; simpl.
  - constructor; constructor.
  - inversion Hx; subst. constructor; [now apply IH|].
    apply Forall_app. split; [assumption|]. now constructor.
Qed.

Lemma StronglySorted_weaken {A} (R R' : A -> A -> Prop) l :
  (forall a b, In a l -> In b l -> R a b -> R' a b) ->
  StronglySorted R l -> StronglySorted R' l.
Proof.
  intros Himp Hs. induction Hs as [|a l Hs IH Ha]; [constructor|].
  constructor.
  - apply IH. intros x y Hx Hy. apply Himp; now right.
  - apply Forall_forall. intros y Hy. apply Himp; [now left | now right |].
    now apply (proj1 (Forall_forall _ _) Ha).
Qed.

Lemma StronglySorted_map {A B} (f : A -> B) (R : B -> B -> Prop) l :
  StronglySorted R (map f l) <-> StronglySorted (fun a b => R (f a) (f b)) l.
Proof.
  induction l as [|a l IH]; simpl.
  - split; constructor.
  - split; intros H; inversion H; subst; constructor;
      try (now apply IH); rewrite Forall_map in *; assumption.
Qed.

(** The keys of a tally are the keys of the stream, in the order of
    their first occurrences. *)
Lemma tally_keys s :
  (forall k, In k (keys (tally s [])) <-> In k s) /\
  StronglySorted (fun a b => first_pos a s < first_pos b s) (keys (tally s [])).
Proof.
  unfold tally. induction s as [|k s [IHin IHs]] using rev_ind.
  - simpl. split; [tauto | constructor].
  - rewrite fold_left_app. simpl. rewrite keys_incr.
    destruct (mem (fold_left incr s []) k) eqn:E.
    + apply mem_In_keys in E. split.
      * intros k'. rewrite IHin, in_app_iff. simpl.
        split; [tauto|]. intros [H|[<-|[]]]; [assumption|]. now apply IHin.
      * eapply StronglySorted_weaken; [|exact IHs].
        intros a b Ha Hb. apply IHin in Ha, Hb.
        now rewrite !first_pos_app_in.
    + assert (Hk : ~ In k s).
      { intros H. apply IHin in H. apply mem_In_keys in H. congruence. }
      split.
      * intros k'. rewrite !in_app_iff, IHin. tauto.
      * apply StronglySorted_snoc.
        -- eapply StronglySorted_weaken; [|exact IHs].
           intros a b Ha Hb. apply IHin in Ha, Hb.
           now rewrite !first_pos_app_in.
        -- apply Forall_forall. intros a Ha. apply IHin in Ha.
           rewrite first_pos_app_in, first_pos_app_new by assumption.
           now apply first_pos_lt.
Qed.

(** Ranking of the most common keys of a tally. *)
Lemma most_common_ranked s n :
  StronglySorted (ranked s) (most_common (tally s []) n).
Proof.
  unfold most_common. apply StronglySorted_firstn, sorted_desc_sorted.
  apply (StronglySorted_map fst (fun a b => first_pos a s < first_pos b s)).
  apply tally_keys.
Qed.

Lemma tally_keys_from s c k :
  In k (keys (tally s c)) -> In k (keys c) \/ In k s.
Proof.
  unfold tally. revert c. induction s as [|x s IH]; intros c; simpl; [tauto|].
  intros H. apply IH in H. rewrite keys_incr in H.
  destruct (mem c x); [tauto|]. rewrite in_app_iff in H. simpl in H.
  intuition.
Qed.

End StreamFacts.

(* ================================================================== *)
(** * Properties of the miners *)
(* ================================================================== *)

Module MinerFacts.
Import PyFacts Dict DictFacts StreamFacts.

Lemma excluded_In (w : str) : excluded w = true <-> In w EXCLUDED_WORDS.
Proof.
  unfold excluded. rewrite existsb_exists. split.
  - intros (x & Hx & E). apply str_eqb_eq in E. now subst.
  - intros H. exists w. split; [assumption | now apply str_eqb_eq].
Qed.

Lemma mapM_ret {A B} (f : A -> result B) (g : B -> A) (l : list A) :
  (forall a, In a l -> exists b, f a = Ret b /\ g b = a) ->
  exists out, mapM f l = Ret out /\ map g out = l.
Proof.
  induction l as [|a l IH]; intros H; simpl.
  - now exists [].
  - destruct (H a (or_introl eq_refl)) as (b & Hb & Hg).
    destruct IH as (out & Ho & Hm); [intros; apply H; now right|].
    rewrite Hb, Ho. exists (b :: out). simpl. now rewrite Hg, Hm.
Qed.

Section WithProvider.
Variable nlp : str -> Doc.

(** *** Lexical miner *)

Lemma doc_lemmas_kept (doc : Doc) (w : str) :
  In w (doc_lemmas doc) -> excluded w = false.
Proof.
  unfold doc_lemmas. rewrite in_map_iff. intros (t & <- & Ht).
  apply filter_In in Ht. destruct Ht as [_ Hk]. unfold kept in Hk.
  apply andb_prop in Hk. destruct Hk as [_ Hk].
  now apply negb_true_iff in Hk.
Qed.

(** The test of line 76 never rejects a window of the filtered lemmas. *)
Lemma recheck_passes (doc : Doc) (a b : Z) :
  existsb excluded (slice (doc_lemmas doc) a b) = false.
Proof.
  destruct (existsb excluded (slice (doc_lemmas doc) a b)) eqn:E; [|reflexivity].
  apply existsb_exists in E. destruct E as (w & Hw & He).
  apply slice_In, doc_lemmas_kept in Hw. congruence.
Qed.

Lemma ngram_step_recheck (n : Z) (doc : Doc) tokens st i :
  ngram_step n (doc_lemmas doc) tokens st i =
  ngram_step_unchecked n (doc_lemmas doc) tokens st i.
Proof.
  unfold ngram_step, ngram_step_unchecked. destruct st as [counts examples].
  now rewrite recheck_passes.
Qed.

Lemma fold_left_ext_eq {A B} (f g : A -> B -> A) (l : list B) (a : A) :
  (forall x y, f x y = g x y) -> fold_left f l a = fold_left g l a.
Proof.
  intros H. revert a. induction l as [|y l IH]; intros a; simpl; [reflexivity|].
  now rewrite H, IH.
Qed.

Lemma ngram_text_step_recheck (n : Z) st txt :
  ngram_text_step nlp n st txt = ngram_text_step_unchecked nlp n st txt.
Proof.
  unfold ngram_text_step, ngram_text_step_unchecked.
  apply fold_left_ext_eq. intros. apply ngram_step_recheck.
Qed.

Lemma recheck_redundant (texts : list str) (n top_k : Z) :
  extract_ngrams nlp texts n top_k = extract_ngrams_unchecked nlp texts n top_k.
Proof.
  unfold extract_ngrams, extract_ngrams_unchecked.
  now rewrite (fold_left_ext_eq _ _ texts _ (ngram_text_step_recheck n)).
Qed.

(** The counter of [extract_ngrams] is the tally of the stream. *)
Lemma ngram_loop_counts n lemmas tokens (idx : list Z) st :
  fst (fold_left (ngram_step n lemmas tokens) idx st) =
  tally (filter (fun gram => negb (existsb excluded gram))
                (map (fun i => slice lemmas i (i + n)) idx)) (fst st).
Proof.
  revert st. induction idx as [|i idx IH]; intros [counts examples]; simpl;
    [reflexivity|].
  rewrite IH. unfold ngram_step.
  destruct (negb (existsb excluded (slice lemmas i (i + n)))); reflexivity.
Qed.

Lemma tally_app s1 s2 c : tally (s1 ++ s2) c = tally s2 (tally s1 c).
Proof. apply fold_left_app. Qed.

Lemma ngram_counts n texts st :
  fst (fold_left (ngram_text_step nlp n) texts st) =
  tally (ngram_stream nlp n texts) (fst st).
Proof.
  revert st. induction texts as [|txt texts IH]; intros st; simpl;
    [reflexivity|].
  rewrite IH, tally_app. f_equal. apply ngram_loop_counts.
Qed.

Lemma covered_step {V} (counts : Counter) (examples : dict V) k v :
  covered (counts, examples) ->
  covered (incr counts k,
           if negb (mem examples k) then set examples k v else examples).
Proof.
  unfold covered. simpl. intros H k' Hk'.
  assert (Hk : In k (keys (if negb (mem examples k)
                           then set examples k v else examples))).
  { destruct (mem examples k) eqn:E; simpl.
    - now apply mem_In_keys.
    - rewrite keys_set, E. apply in_or_app. right. now left. }
  rewrite keys_incr in Hk'.
  assert (Hold : In k' (keys counts) ->
                 In k' (keys (if negb (mem examples k)
                              then set examples k v else examples))).
  { intros Hc. apply H in Hc. destruct (mem examples k) eqn:E; simpl;
      [assumption|]. rewrite keys_set, E. apply in_or_app. now left. }
  destruct (mem counts k); [now apply Hold|].
  apply in_app_or in Hk'. destruct Hk' as [Hc|[<-|[]]]; auto.
Qed.

Lemma ngram_loop_covered n lemmas tokens (idx : list Z) st :
  covered st -> covered (fold_left (ngram_step n lemmas tokens) idx st).
Proof.
  revert st. induction idx as [|i idx IH]; intros [counts examples] H; simpl;
    [assumption|].
  apply IH. unfold ngram_step.
  destruct (negb (existsb excluded (slice lemmas i (i + n))));
    [now apply covered_step | assumption].
Qed.

Lemma ngram_covered n texts st :
  covered st -> covered (fold_left (ngram_text_step nlp n) texts st).
Proof.
  revert st. induction texts as [|txt texts IH]; intros st H; simpl;
    [assumption|].
  apply IH. now apply ngram_loop_covered.
Qed.

(** [extract_ngrams] returns, and its records are the most common items
    of the tally. *)
Lemma extract_ngrams_ret texts n top_k :
  exists out,
    extract_ngrams nlp texts n top_k = Ret out /\
    map ngram_item out = most_common (tally (ngram_stream nlp n texts) []) top_k.
Proof.
  unfold extract_ngrams.
  pose proof (ngram_counts n texts ([], [])) as Hc.
  pose proof (@ngram_covered n texts ([], [])) as Hv.
  destruct (fold_left (ngram_text_step nlp n) texts ([], []))
    as [counts examples].
  simpl in Hc. subst counts.
  apply mapM_ret. intros [gram cnt] Hin.
  apply most_common_In in Hin.
  assert (Hk : In gram (keys (snd (tally (ngram_stream nlp n texts) [],
                                   examples)))).
  { apply Hv; [intros k []|]. simpl. unfold keys.
    change gram with (fst (gram, cnt)). now apply in_map. }
  simpl in Hk. apply get_In_keys in Hk.
  destruct (get examples gram) as [ex|]; [|congruence].
  now exists (gram, cnt, ex).
Qed.

Lemma ngram_stream_kept n texts gram w :
  In gram (ngram_stream nlp n texts) -> In w gram -> excluded w = false.
Proof.
  unfold ngram_stream. rewrite in_flat_map. intros (txt & _ & Hg) Hw.
  unfold windows in Hg. apply filter_In in Hg. destruct Hg as [Hg _].
  apply in_map_iff in Hg. destruct Hg as (i & <- & _).
  apply slice_In in Hw. now apply doc_lemmas_kept in Hw.
Qed.

Lemma ngram_records_in_stream texts n top_k out r :
  extract_ngrams nlp texts n top_k = Ret out -> In r out ->
  In (fst (fst r)) (ngram_stream nlp n texts).
Proof.
  intros Ho Hr.
  destruct (extract_ngrams_ret texts n top_k) as (out' & Ho' & Hm).
  rewrite Ho in Ho'. injection Ho' as <-.
  apply (in_map ngram_item) in Hr. rewrite Hm in Hr.
  apply most_common_In in Hr. apply (in_map fst) in Hr.
  now apply (proj1 (tally_keys (ngram_stream nlp n texts))).
Qed.

(** *** Structure miner *)

Lemma setdefault_unfold {V} (d : dict V) k v :
  setdefault d k v = if negb (mem d k) then set d k v else d.
Proof. unfold setdefault. now destruct (mem d k). Qed.

Lemma struct_step_unfold sent doc (counter : Counter)
    (examples : dict (str * Doc)) root :
  struct_step sent doc (counter, examples) root =
  if too_short (clause_dep_signature doc root) then (counter, examples)
  else (incr counter (clause_dep_signature doc root),
        setdefault examples (clause_dep_signature doc root) (sent, doc)).
Proof. reflexivity. Qed.

Lemma struct_loop_counts sent doc (roots : list Token) st :
  fst (fold_left (struct_step sent doc) roots st) =
  tally (filter (fun sig => negb (too_short sig))
                (map (clause_dep_signature doc) roots)) (fst st).
Proof.
  revert st. induction roots as [|root roots IH]; intros [counter examples];
    [reflexivity|].
  cbn [fold_left map filter]. rewrite IH, struct_step_unfold.
  destruct (too_short (clause_dep_signature doc root)); reflexivity.
Qed.

Lemma struct_counts sentences st :
  fst (fold_left (struct_sent_step nlp) sentences st) =
  tally (sig_stream nlp sentences) (fst st).
Proof.
  revert st. induction sentences as [|sent sentences IH]; intros st; simpl;
    [reflexivity|].
  rewrite IH, tally_app. f_equal. apply struct_loop_counts.
Qed.

Lemma struct_loop_covered sent doc (roots : list Token) st :
  covered st -> covered (fold_left (struct_step sent doc) roots st).
Proof.
  revert st. induction roots as [|root roots IH]; intros [counter examples] H;
    [assumption|].
  cbn [fold_left]. apply IH. rewrite struct_step_unfold.
  destruct (too_short (clause_dep_signature doc root)); [assumption|].
  rewrite setdefault_unfold. now apply covered_step.
Qed.

Lemma struct_covered sentences st :
  covered st -> covered (fold_left (struct_sent_step nlp) sentences st).
Proof.
  revert st. induction sentences as [|sent sentences IH]; intros st H; simpl;
    [assumption|].
  apply IH. now apply struct_loop_covered.
Qed.

(** [top_syntactic_structures] returns, and its records are the most
    common items of the tally of signatures. *)
Lemma top_syntactic_structures_ret sentences top_n :
  exists out,
    top_syntactic_structures nlp sentences top_n = Ret out /\
    map struct_item out = most_common (tally (sig_stream nlp sentences) []) top_n.
Proof.
  unfold top_syntactic_structures.
  pose proof (struct_counts sentences ([], [])) as Hc.
  pose proof (@struct_covered sentences ([], [])) as Hv.
  destruct (fold_left (struct_sent_step nlp) sentences ([], []))
    as [counter examples].
  simpl in Hc. subst counter.
  apply mapM_ret. intros [sig freq] Hin.
  apply most_common_In in Hin.
  assert (Hk : In sig (keys (snd (tally (sig_stream nlp sentences) [],
                                  examples)))).
  { apply Hv; [intros k []|]. simpl. unfold keys.
    change sig with (fst (sig, freq)). now apply in_map. }
  simpl in Hk. apply get_In_keys in Hk.
  destruct (get examples sig) as [[sent doc]|]; [|congruence].
  now exists (sig, freq, sent, doc).
Qed.

Lemma sig_stream_long sentences sig :
  In sig (sig_stream nlp sentences) -> 2 <= length sig.
Proof.
  unfold sig_stream. rewrite in_flat_map. intros (sent & _ & Hs).
  unfold doc_signatures in Hs. apply filter_In in Hs. destruct Hs as [_ Hs].
  apply negb_true_iff in Hs. unfold too_short in Hs.
  apply orb_false_iff in Hs. destruct Hs as [_ Hs].
  apply Z.ltb_ge in Hs. unfold len in Hs. lia.
Qed.

(** *** Pattern locator *)

(** The scan over [i] succeeds exactly on a contiguous window. *)
Lemma scan_window (lemmas key : tuple) :
  existsb (fun i => tuple_eqb (slice lemmas i (i + len key)) key)
          (range (len lemmas - len key + 1)) = true
  <-> window_in key lemmas.
Proof.
  rewrite existsb_exists. split.
  - intros (i & _ & E). apply tuple_eqb_eq in E.
    destruct (slice_window lemmas i (i + len key)) as (pre & post & Hw).
    rewrite E in Hw. now exists pre, post.
  - intros (pre & post & ->). exists (len pre). split.
    + apply range_In. unfold len. rewrite !length_app. lia.
    + apply tuple_eqb_eq. apply slice_app.
Qed.

Lemma scan_no_window (lemmas key : tuple) :
  existsb (fun i => tuple_eqb (slice lemmas i (i + len key)) key)
          (range (len lemmas - len key + 1)) = false
  <-> ~ window_in key lemmas.
Proof.
  rewrite <- scan_window.
  destruct (existsb _ _); split; congruence.
Qed.

End WithProvider.
End MinerFacts.

(* ================================================================== *)
(** * Properties of the pattern *)
(* ================================================================== *)

Module ReFacts.
Import Re.

Section Rep.
Variable R : Type.
Implicit Types (k : option N -> str -> option R).





End Rep.

(** ** The scan *)



End ReFacts.

Module ClassFacts.
Import Re.

Ltac cmp :=
  repeat match goal with
  | H : context [(?a <=? ?b)%N] |- _ => destruct (N.leb_spec a b); try lia
  | |- context [(?a <=? ?b)%N] => destruct (N.leb_spec a b); try lia
  | H : context [(?a =? ?b)%N] |- _ => destruct (N.eqb_spec a b); try lia
  | |- context [(?a =? ?b)%N] => destruct (N.eqb_spec a b); try lia
  end.

Ltac classes :=
  unfold letter_code, isspace, isdecimal, isalnum, cp_lower, in_range in *;
  cmp; simpl in *;
  repeat match goal with
  | |- context [N.even ?c] => destruct (N.even c); simpl
  | |- context [N.odd ?c] => destruct (N.odd c); simpl
  | H : context [N.even ?c] |- _ => destruct (N.even c); simpl in H
  | H : context [N.odd ?c] |- _ => destruct (N.odd c); simpl in H
  end;
  cmp; simpl in *; try reflexivity; try discriminate; try lia.

Lemma lower_letter c :
  in_range 97 122 (cp_lower c) || in_range 1072 1103 (cp_lower c)
  = letter_code c.
Proof. classes. Qed.

Lemma lower_fixed y :
  in_range 97 122 y || in_range 1072 1103 y = true -> cp_lower y = y.
Proof. intros H. classes. Qed.

Lemma lower_capital y : in_range 65 90 y = true -> cp_lower y = (y + 32)%N.
Proof. intros H. classes. Qed.






Lemma letter_word c : letter_code c = true -> isalnum c = true.
Proof. intros H. classes. Qed.

Lemma codepoints_In y n lo :
  In y (codepoints lo n) <-> (lo <= y < lo + N.of_nat n)%N.
Proof.
  revert lo. induction n as [|n IH]; intros lo; simpl codepoints.
  - simpl. lia.
  - simpl In. rewrite IH. lia.
Qed.

Lemma range_match lo hi c :
  item_match (Rg lo hi) c = true <->
  exists y, (lo <= y <= hi)%N /\ cp_lower y = cp_lower c.
Proof.
  simpl. rewrite existsb_exists. split.
  - intros (y & Hy & E). apply codepoints_In in Hy. apply N.eqb_eq in E.
    exists y. split; [lia | assumption].
  - intros (y & Hy & E). exists y.
    split; [apply codepoints_In; lia | now apply N.eqb_eq].
Qed.

Lemma in_range_iff lo hi c : in_range lo hi c = true <-> (lo <= c <= hi)%N.
Proof. unfold in_range. rewrite andb_true_iff, !N.leb_le. tauto. Qed.

(** The class [[а-яa-zA-Z]] under [re.IGNORECASE]. *)
Lemma is_letter_code c : is_letter c = letter_code c.
Proof.
  apply eq_true_iff_eq. rewrite <- lower_letter.
  unfold is_letter, gost_letters, cs_match. cbn [existsb].
  rewrite !orb_true_iff, !range_match, !in_range_iff. split.
  - intros [(y & Hy & E)|[(y & Hy & E)|[(y & Hy & E)|H]]];
      [| | |discriminate H]; rewrite <- E.
    + right. rewrite lower_fixed; [lia|].
      apply orb_true_iff. right. now apply in_range_iff.
    + left. rewrite lower_fixed; [lia|].
      apply orb_true_iff. left. now apply in_range_iff.
    + left. rewrite lower_capital; [lia | now apply in_range_iff].
  - intros [H|H].
    + right. left. exists (cp_lower c). split; [assumption|].
      apply lower_fixed. apply orb_true_iff. left. now apply in_range_iff.
    + left. exists (cp_lower c). split; [assumption|].
      apply lower_fixed. apply orb_true_iff. right. now apply in_range_iff.
Qed.







Lemma nonword_not_letter c : is_word (Some c) = false -> is_letter c = false.
Proof.
  simpl. intros H. apply orb_false_iff in H. destruct H as [H _].
  rewrite is_letter_code. destruct (letter_code c) eqn:E; [|reflexivity].
  apply letter_word in E. congruence.
Qed.

End ClassFacts.

(** ** Matching a regulatory phrase *)

Module GostFacts.
Import Re ReFacts ClassFacts.










Lemma drop_while_stop (p : N -> bool) s :
  starts (fun c => p c = false) s -> drop_while p s = s.
Proof. destruct s as [|c s]; [reflexivity|]. cbn. now intros ->. Qed.










(** The pattern does not match where the word гост does not start. *)
Lemma no_match prev c s :
  cp_lower c <> 1075%N -> match_at gost_pattern prev (c :: s) = None.
Proof.
  intros Hc. unfold match_at, gost_pattern. cbn [run].
  destruct (xorb _ _); [|reflexivity].
  unfold cs_match, item_match. cbn [existsb].
  change (cp_lower 1075) with 1075%N.
  destruct (N.eqb_spec 1075 (cp_lower c)); [congruence | reflexivity].
Qed.

(** Text in which the word гост does not start is copied. *)
Lemma delete_copy pre : forall prev s,
  no_gost_start pre ->
  delete gost_pattern 0 prev (pre ++ s) =
  pre ++ delete gost_pattern 0 (after prev pre) s.
Proof.
  induction pre as [|c pre IH]; intros prev s Hpre; [reflexivity|].
  inversion Hpre as [|? ? Hc Hpre']; subst.
  cbn [app delete]. rewrite no_match by assumption.
  f_equal. now apply IH.
Qed.






Lemma no_gost_start_free pre rest : no_gost_start pre -> gost_free pre rest.
Proof.
  induction 1 as [|c pre Hc _ IH]; [exact I|]. split; [|exact IH].
  change (u "гост") with [1075%N; 1086%N; 1089%N; 1090%N].
  cbn [prefix_ci app]. change (cp_lower 1075) with 1075%N.
  destruct (N.eqb_spec 1075 (cp_lower c)); [congruence | reflexivity].
Qed.

End GostFacts.

(* ================================================================== *)
(** * Counting and ranking *)
(* ================================================================== *)

Import PyFacts Dict DictFacts StreamFacts MinerFacts.

(** A property decided by a boolean test holds of a list that passes
    the test. *)
Lemma Forall_dec_true {A} (P : A -> Prop) (p : A -> bool) (l : list A) :
  (forall x, p x = true -> P x) -> forallb p l = true -> Forall P l.
Proof.
  intros Hp H. apply Forall_forall. intros x Hx.
  apply Hp. now apply (proj1 (forallb_forall p l) H).
Qed.

Lemma get_incr_same (c : Counter) k :
  get (incr c k) k = Some (match get c k with Some n => n | None => 0 end + 1)%Z.
Proof. unfold incr. apply get_set_same. Qed.

Lemma get_incr_other (c : Counter) k k' :
  k <> k' -> get (incr c k) k' = get c k'.
Proof. unfold incr. apply get_set_other. Qed.

Lemma occurrences_nonneg key s : (0 <= occurrences key s)%Z.
Proof. induction s as [|k s IH]; simpl; [lia|]. destruct (tuple_eqb k key); lia. Qed.

Lemma occurrences_pos key s : In key s <-> (0 < occurrences key s)%Z.
Proof.
  induction s as [|k s IH]; simpl; [split; [tauto | lia]|].
  pose proof (occurrences_nonneg key s).
  destruct (tuple_eqb k key) eqn:E.
  - apply tuple_eqb_eq in E. split; [lia | auto].
  - apply tuple_eqb_neq in E. rewrite IH. split; [intros [?|?]; [congruence | lia] | intros; right; lia].
Qed.

(** The count kept for a key is the count it had plus its occurrences. *)
Lemma tally_get s : forall c key,
  get (tally s c) key =
  match get c key with
  | Some v => Some (v + occurrences key s)%Z
  | None => if (occurrences key s =? 0)%Z then None
            else Some (occurrences key s)
  end.
Proof.
  unfold tally. induction s as [|k s IH]; intros c key; simpl.
  - destruct (get c key); [f_equal; lia | reflexivity].
  - rewrite IH. pose proof (occurrences_nonneg key s) as Hn.
    destruct (tuple_eqb k key) eqn:E.
    + apply tuple_eqb_eq in E. subst k. rewrite get_incr_same.
      destruct (get c key) as [v|].
      * f_equal; lia.
      * destruct (Z.eqb_spec (1 + occurrences key s) 0); [lia|]. f_equal; lia.
    + apply tuple_eqb_neq in E. rewrite get_incr_other by assumption.
      reflexivity.
Qed.

Lemma tally_count s key :
  get (tally s []) key =
  if (occurrences key s =? 0)%Z then None else Some (occurrences key s).
Proof. now rewrite tally_get. Qed.

Lemma StronglySorted_lt_NoDup {A} (f : A -> nat) l :
  StronglySorted (fun a b => f a < f b) l -> NoDup l.
Proof.
  induction 1 as [|a l Hs IH Ha]; constructor; [|assumption].
  intros Hin. pose proof (proj1 (Forall_forall _ _) Ha a Hin) as H.
  cbv beta in H. lia.
Qed.

Lemma tally_keys_NoDup s : NoDup (keys (tally s [])).
Proof.
  apply (StronglySorted_lt_NoDup (fun k => first_pos k s)). apply tally_keys.
Qed.

Lemma get_of_In {V} (d : dict V) k v :
  NoDup (keys d) -> In (k, v) d -> get d k = Some v.
Proof.
  induction d as [|[k' w] d IH]; simpl; [tauto|].
  intros Hnd [H|H].
  - injection H as -> ->. now rewrite tuple_eqb_refl.
  - inversion Hnd as [|? ? Hk Hnd']; subst.
    destruct (tuple_eqb k' k) eqn:E.
    + apply tuple_eqb_eq in E. subst k'. exfalso. apply Hk.
      change k with (fst (k, v)). now apply in_map.
    + now apply IH.
Qed.

(** An item of the most common ones carries the number of occurrences
    of its key. *)
Lemma most_common_count s n k v :
  In (k, v) (most_common (tally s []) n) ->
  v = occurrences k s /\ (1 <= v)%Z.
Proof.
  intros H. apply most_common_In in H.
  apply get_of_In in H; [|apply tally_keys_NoDup].
  rewrite tally_count in H. pose proof (occurrences_nonneg k s).
  destruct (Z.eqb_spec (occurrences k s) 0); [discriminate|].
  injection H as <-. split; [reflexivity | lia].
Qed.

Lemma insert_desc_perm x l : Permutation (insert_desc x l) (x :: l).
Proof.
  induction l as [|y l IH]; simpl; [reflexivity|].
  destruct (snd x <? snd y)%Z; [|reflexivity].
  rewrite IH. apply perm_swap.
Qed.

Lemma sorted_desc_perm l : Permutation (sorted_desc l) l.
Proof.
  induction l as [|x l IH]; simpl; [reflexivity|].
  rewrite insert_desc_perm. now constructor.
Qed.

Lemma NoDup_firstn {A} n (l : list A) : NoDup l -> NoDup (firstn n l).
Proof.
  intros H. rewrite <- (firstn_skipn n l) in H. now apply NoDup_app_remove_r in H.
Qed.

Lemma firstn_map_comm {A B} (f : A -> B) n l : map f (firstn n l) = firstn n (map f l).
Proof. symmetry. apply firstn_map. Qed.

Lemma most_common_keys_NoDup s n : NoDup (map fst (most_common (tally s []) n)).
Proof.
  unfold most_common. rewrite <- firstn_map. apply NoDup_firstn.
  eapply Permutation_NoDup; [|apply (tally_keys_NoDup s)].
  symmetry. apply Permutation_map. apply sorted_desc_perm.
Qed.

Lemma most_common_length c n :
  length (most_common c n) = Nat.min (Z.to_nat n) (length c).
Proof.
  unfold most_common. rewrite length_firstn.
  now rewrite (Permutation_length (sorted_desc_perm c)).
Qed.

Lemma mem_existsb {V} (d : dict V) k : mem d k = existsb (tuple_eqb k) (keys d).
Proof.
  apply eq_true_iff_eq. rewrite mem_In_keys, existsb_exists. split.
  - intros H. exists k. split; [assumption | apply tuple_eqb_refl].
  - intros (x & Hx & E). apply tuple_eqb_eq in E. now subst.
Qed.

(** The keys of a tally are the distinct keys of the stream, in the
    order of their first occurrences. *)
Lemma tally_keys_distinct s : forall c,
  keys (tally s c) = keys c ++ distinct (keys c) s.
Proof.
  unfold tally. induction s as [|k s IH]; intros c; simpl.
  - now rewrite app_nil_r.
  - rewrite IH, keys_incr, <- mem_existsb.
    destruct (mem c k); [reflexivity|]. now rewrite <- app_assoc.
Qed.

Lemma tally_length s :
  length (tally s []) = length (distinct [] s).
Proof.
  rewrite <- (length_map fst). fold (keys (tally s [])).
  now rewrite tally_keys_distinct.
Qed.

Lemma StronglySorted_app_inv {A} (R : A -> A -> Prop) l1 l2 a b :
  StronglySorted R (l1 ++ l2) -> In a l1 -> In b l2 -> R a b.
Proof.
  induction l1 as [|x l1 IH]; simpl; [tauto|].
  intros Hs [->|Ha] Hb; inversion Hs as [|? ? Hs' Hx]; subst.
  - apply (proj1 (Forall_forall _ _) Hx). apply in_or_app. now right.
  - now apply IH.
Qed.

(** No item left out of the most common ones has a greater count than
    one of them. *)
Lemma most_common_dominates s n a b :
  In a (most_common (tally s []) n) ->
  In b (tally s []) -> ~ In b (most_common (tally s []) n) ->
  (snd b <= snd a)%Z.
Proof.
  unfold most_common. intros Ha Hb Hnb.
  assert (Hs : StronglySorted (ranked s) (sorted_desc (tally s []))).
  { apply sorted_desc_sorted.
    apply (StronglySorted_map fst (fun a b => first_pos a s < first_pos b s)).
    apply tally_keys. }
  rewrite <- (firstn_skipn (Z.to_nat n)) in Hs.
  assert (Hb' : In b (skipn (Z.to_nat n) (sorted_desc (tally s [])))).
  { apply sorted_desc_In in Hb.
    rewrite <- (firstn_skipn (Z.to_nat n)) in Hb.
    apply in_app_or in Hb. tauto. }
  pose proof (@StronglySorted_app_inv _ (ranked s) _ _ a b Hs Ha Hb') as H.
  unfold ranked in H. lia.
Qed.

Lemma mapM_firstn {A B} (f : A -> result B) n l out :
  mapM f l = Ret out -> mapM f (firstn n l) = Ret (firstn n out).
Proof.
  revert n out. induction l as [|a l IH]; intros n out; simpl.
  - intros H. injection H as <-. now rewrite !firstn_nil.
  - destruct (f a) as [b|] eqn:E; [|discriminate].
    destruct (mapM f l) as [bs|] eqn:E'; [|discriminate].
    intros H. injection H as <-. destruct n as [|n]; simpl; [reflexivity|].
    now rewrite E, (IH n bs eq_refl).
Qed.

Lemma most_common_prefix c k k' :
  (k <= k')%Z ->
  most_common c k = firstn (Z.to_nat k) (most_common c k').
Proof.
  intros H. unfold most_common. rewrite firstn_firstn.
  f_equal. lia.
Qed.

Lemma get_In {V} (d : dict V) k v : get d k = Some v -> In (k, v) d.
Proof.
  induction d as [|[k' w] d IH]; simpl; [discriminate|].
  destruct (tuple_eqb k' k) eqn:E.
  - apply tuple_eqb_eq in E. intros H. injection H as ->. subst. now left.
  - intros H. right. now apply IH.
Qed.

(** The sorted items of a tally are the ranking of its stream. *)
Lemma tally_ranking (s : list tuple) : ranking_of s (sorted_desc (tally s [])).
Proof.
  repeat split.
  - rewrite (Permutation_map fst (sorted_desc_perm (tally s []))).
    fold (keys (tally s [])). now rewrite tally_keys_distinct.
  - apply Forall_forall. intros [k v] H. apply (proj1 (sorted_desc_In _ _)) in H.
    apply get_of_In in H; [|apply tally_keys_NoDup].
    rewrite tally_count in H.
    destruct (Z.eqb_spec (occurrences k s) 0); [discriminate|].
    now injection H as <-.
  - apply sorted_desc_sorted.
    apply (StronglySorted_map fst (fun a b => first_pos a s < first_pos b s)).
    apply tally_keys.
Qed.

(** An item of the most common ones is ranked before every counted key
    that is left out. *)
Lemma most_common_cut s n a key :
  In a (most_common (tally s []) n) ->
  In key s -> ~ In key (map fst (most_common (tally s []) n)) ->
  ranked s a (key, occurrences key s).
Proof.
  unfold most_common. intros Ha Hin Hout.
  destruct (tally_ranking s) as (_ & _ & Hs).
  rewrite <- (firstn_skipn (Z.to_nat n)) in Hs.
  assert (Hb : In (key, occurrences key s) (tally s [])).
  { apply get_In. rewrite tally_count. apply occurrences_pos in Hin.
    destruct (Z.eqb_spec (occurrences key s) 0); [lia | reflexivity]. }
  apply sorted_desc_In in Hb.
  rewrite <- (firstn_skipn (Z.to_nat n)) in Hb. apply in_app_or in Hb.
  destruct Hb as [Hb|Hb].
  - exfalso. apply Hout. change key with (fst (key, occurrences key s)).
    now apply in_map.
  - exact (@StronglySorted_app_inv _ (ranked s) _ _ a _ Hs Ha Hb).
Qed.

Lemma most_common_ranking s n :
  exists items,
    ranking_of s items /\
    most_common (tally s []) n = firstn (Z.to_nat n) items /\
    StronglySorted (ranked s) (most_common (tally s []) n) /\
    (forall a key,
       In a (most_common (tally s []) n) -> In key s ->
       ~ In key (map fst (most_common (tally s []) n)) ->
       ranked s a (key, occurrences key s)).
Proof.
  exists (sorted_desc (tally s [])). split; [apply tally_ranking|].
  split; [reflexivity|]. split; [apply most_common_ranked|].
  intros a key. apply most_common_cut.
Qed.

(* ================================================================== *)
(** * The claims *)
(* ================================================================== *)

Import PyFacts Dict DictFacts StreamFacts MinerFacts ReFacts GostFacts.

Lemma find_some (nlp : str -> Doc) (sentences : list str) (key : tuple) :
  Exists (fun sent => window_in key (located_lemmas nlp sent)) sentences ->
  exists found, find_sentence_with_ngram nlp sentences key = Some found.
Proof.
  induction 1 as [sent rest Hw | sent rest _ IH]; simpl.
  - apply scan_window in Hw. unfold located_lemmas in Hw. rewrite Hw. eauto.
  - destruct (existsb _ _); eauto.
Qed.

(** Scenario A of the specification: with [n = 2] and [top_k = 1] the
    three bigram counts tie at 1 and the first bigram of the first
    sentence is returned. *)
Example scenario_a :
  extract_ngrams Fixture.nlp Fixture.corpus 2 1 =
  Ret [([u "оператор"; u "открывать"], 1%Z, u "оператор открывает")].
Proof. vm_compute; reflexivity. Qed.

(** C1, counterexample.  On the corpus ["ГОСТ ИСО 9001 регулирует
    процесс."] the bigram miner returns a record with key
    (исо, регулировать), read off the unstripped sentence, and the
    locator, which parses the stripped sentence "регулирует процесс.",
    returns [None] for that key. *)
Lemma roundtrip_lost_after_stripping :
  extract_ngrams Fixture.nlp [Fixture.iso_rule] 2 3 =
    Ret [([u "исо"; u "регулировать"], 1%Z, u "исо регулирует");
         ([u "регулировать"; u "процесс"], 1%Z, u "регулирует процесс")]
  /\ find_sentence_with_ngram Fixture.nlp [Fixture.iso_rule]
       [u "исо"; u "регулировать"] = None.
Proof. split; vm_compute; reflexivity. Qed.

(** C1, amended.  When stripping the regulatory phrases leaves the
    filtered lemma sequence of every sentence of the corpus unchanged (in
    particular when no sentence contains such a phrase), the locator
    returns a sentence for the key of every record that [extract_ngrams]
    returns on that corpus. *)
Theorem roundtrip_when_stripping_keeps_lemmas
    (nlp : str -> Doc) (texts : list str) (n top_k : Z)
    (out : list NgramRecord) (gram : tuple) (cnt : Z) (ex : str) :
  (forall txt, In txt texts ->
     doc_lemmas (nlp (remove_gost_phrases txt)) = doc_lemmas (nlp txt)) ->
  extract_ngrams nlp texts n top_k = Ret out ->
  In (gram, cnt, ex) out ->
  exists found, find_sentence_with_ngram nlp texts gram = Some found.
Proof.
  intros Hkeep Hout Hin.
  pose proof (ngram_records_in_stream nlp texts n top_k _ Hout Hin) as Hs.
  simpl in Hs. unfold ngram_stream in Hs. apply in_flat_map in Hs.
  destruct Hs as (txt & Htxt & Hw).
  apply find_some. apply Exists_exists. exists txt. split; [assumption|].
  unfold located_lemmas. rewrite (Hkeep txt Htxt).
  unfold windows in Hw. apply filter_In in Hw. destruct Hw as [Hw _].
  apply in_map_iff in Hw. destruct Hw as (i & <- & _).
  apply slice_window.
Qed.

Lemma roundtrip_when_stripping_keeps_lemmas_witness :
  exists found,
    find_sentence_with_ngram Fixture.nlp Fixture.corpus
      [u "оператор"; u "открывать"] = Some found.
Proof.
  apply (@roundtrip_when_stripping_keeps_lemmas Fixture.nlp Fixture.corpus 2 1
           [([u "оператор"; u "открывать"], 1%Z, u "оператор открывает")]
           [u "оператор"; u "открывать"] 1%Z (u "оператор открывает")).
  - intros txt [<-|[<-|[<-|[]]]]; vm_compute; reflexivity.
  - vm_compute; reflexivity.
  - left; reflexivity.
Defined.

(** C2, counterexample.  For the corpus
    ["ГОСТ Р 57528-2016 регулирует процесс."] and the key
    (регулировать, процесс) the locator returns "регулирует процесс.",
    the text after stripping, which is not the original text of any
    sentence of the corpus. *)
Lemma located_text_is_stripped :
  find_sentence_with_ngram Fixture.nlp [Fixture.gost_rule]
    [u "регулировать"; u "процесс"] = Some (u "регулирует процесс.")
  /\ ~ In (u "регулирует процесс.") [Fixture.gost_rule].
Proof.
  split; [vm_compute; reflexivity|].
  intros [H|[]]. vm_compute in H. discriminate H.
Qed.

(** C2, amended.  [find_sentence_with_ngram] returns the text, after
    regulatory-phrase stripping, of the first sentence in corpus order
    whose filtered lemma sequence contains [lemma_key] as a contiguous
    window; when no sentence matches it returns [None], an ordinary
    value. *)
Theorem find_sentence_with_ngram_first_match
    (nlp : str -> Doc) (sentences : list str) (lemma_key : tuple) :
  match find_sentence_with_ngram nlp sentences lemma_key with
  | Some found =>
      exists before sent behind,
        sentences = before ++ sent :: behind /\
        Forall (fun s => ~ window_in lemma_key (located_lemmas nlp s)) before /\
        window_in lemma_key (located_lemmas nlp sent) /\
        found = remove_gost_phrases sent
  | None =>
      Forall (fun s => ~ window_in lemma_key (located_lemmas nlp s)) sentences
  end.
Proof.
  induction sentences as [|sent rest IH]; simpl; [constructor|].
  destruct (existsb _ _) eqn:E.
  - apply scan_window in E. exists [], sent, rest. repeat split; auto.
  - apply scan_no_window in E.
    destruct (find_sentence_with_ngram nlp rest lemma_key) as [found|].
    + destruct IH as (before & s & behind & -> & Hb & Hw & ->).
      exists (sent :: before), s, behind. repeat split; auto.
    + constructor; assumption.
Qed.

(** C3, counterexample.  There is no provider, corpus, [n] and [top_k]
    on which [extract_ngrams] and its variant without the test of
    line 76 differ. *)
Lemma recheck_never_changes_output :
  ~ exists (nlp : str -> Doc) (texts : list str) (n top_k : Z),
      extract_ngrams nlp texts n top_k <>
      extract_ngrams_unchecked nlp texts n top_k.
Proof.
  intros (nlp & texts & n & top_k & H). apply H. apply recheck_redundant.
Qed.

(** C3, amended.  The re-validation of a window against the exclusion
    set is redundant: for every corpus, [n] and [top_k],
    [extract_ngrams] returns what its variant without the test returns,
    because every window consists of lemmas the filter has kept. *)
Theorem extract_ngrams_recheck_redundant
    (nlp : str -> Doc) (texts : list str) (n top_k : Z) :
  extract_ngrams nlp texts n top_k = extract_ngrams_unchecked nlp texts n top_k
  /\ forall doc a b, existsb excluded (slice (doc_lemmas doc) a b) = false.
Proof.
  split; [apply recheck_redundant | apply recheck_passes].
Qed.

(** C4.  [is_real_sentence] holds exactly when the parse has at least 3
    tokens that are neither punctuation nor whitespace and one of these
    tokens has part of speech VERB; it is false whenever fewer than 3
    tokens of the parse are not punctuation, whatever their parts of
    speech. *)
Theorem is_real_sentence_iff (nlp : str -> Doc) (text : str) :
  (is_real_sentence nlp text = true <->
     3 <= length (content (nlp text)) /\
     Exists (fun t => pos_ t = u "VERB") (content (nlp text)))
  /\ (length (filter (fun t => negb (is_punct t)) (nlp text)) < 3 ->
      is_real_sentence nlp text = false).
Proof.
  unfold is_real_sentence. fold (content (nlp text)). split.
  - rewrite andb_true_iff, Z.leb_le, existsb_exists, Exists_exists.
    unfold len. split.
    + intros [Hl (t & Ht & Hv)]. split; [lia|].
      exists t. split; [assumption | now apply str_eqb_eq].
    + intros [Hl (t & Ht & Hv)]. split; [lia|].
      exists t. split; [assumption | now apply str_eqb_eq].
  - intros Hfew.
    assert (Hle : length (content (nlp text)) <=
                  length (filter (fun t => negb (is_punct t)) (nlp text))).
    { clear Hfew. unfold content.
      induction (nlp text) as [|t doc IH]; [simpl; lia|].
      cbn [filter]. destruct (is_punct t), (is_space t);
        cbn [negb andb length]; lia. }
    apply andb_false_iff. left. apply Z.leb_gt. unfold len. lia.
Qed.

Lemma is_real_sentence_iff_witness :
  length (filter (fun t => negb (is_punct t)) (Fixture.nlp Fixture.rule)) < 3
  /\ is_real_sentence Fixture.nlp Fixture.rule = false.
Proof.
  split; [vm_compute; lia|].
  apply (proj2 (is_real_sentence_iff Fixture.nlp Fixture.rule)).
  vm_compute; lia.
Defined.

(** C5.  For every corpus, [n] and [top_k], [extract_ngrams] returns a
    list of records, and no element of the [lemma_key] of any of them is
    a member of [EXCLUDED_WORDS]. *)
Theorem extract_ngrams_keys_not_excluded
    (nlp : str -> Doc) (texts : list str) (n top_k : Z) :
  exists out,
    extract_ngrams nlp texts n top_k = Ret out /\
    Forall (fun r : NgramRecord =>
              Forall (fun w => ~ In w EXCLUDED_WORDS) (fst (fst r))) out.
Proof.
  destruct (extract_ngrams_ret nlp texts n top_k) as (out & Hout & _).
  exists out. split; [assumption|].
  apply Forall_forall. intros r Hr. apply Forall_forall. intros w Hw Hex.
  apply excluded_In in Hex.
  pose proof (ngram_records_in_stream nlp texts n top_k r Hout Hr) as Hs.
  pose proof (ngram_stream_kept nlp n texts _ w Hs Hw). congruence.
Qed.

(** C6.  Each miner returns the first [top_k] (resp. [top_n]) items of
    the ranking of its counted keys: the list of every counted key with
    the number of its occurrences, ordered by descending count and,
    among equal counts, by first occurrence in corpus order.  So the
    returned records are in that order, and a returned record is ranked
    before every counted key that is left out: it has a greater count,
    or the same count and an earlier first occurrence. *)
Theorem records_ranked
    (nlp : str -> Doc) (texts : list str) (n top_k : Z)
    (sentences : list str) (top_n : Z) :
  (exists out items,
     extract_ngrams nlp texts n top_k = Ret out /\
     ranking_of (ngram_stream nlp n texts) items /\
     map ngram_item out = firstn (Z.to_nat top_k) items /\
     StronglySorted (ranked (ngram_stream nlp n texts)) (map ngram_item out) /\
     (forall a key,
        In a (map ngram_item out) -> In key (ngram_stream nlp n texts) ->
        ~ In key (map fst (map ngram_item out)) ->
        ranked (ngram_stream nlp n texts) a
               (key, occurrences key (ngram_stream nlp n texts))))
  /\
  (exists out items,
     top_syntactic_structures nlp sentences top_n = Ret out /\
     ranking_of (sig_stream nlp sentences) items /\
     map struct_item out = firstn (Z.to_nat top_n) items /\
     StronglySorted (ranked (sig_stream nlp sentences)) (map struct_item out) /\
     (forall a key,
        In a (map struct_item out) -> In key (sig_stream nlp sentences) ->
        ~ In key (map fst (map struct_item out)) ->
        ranked (sig_stream nlp sentences) a
               (key, occurrences key (sig_stream nlp sentences)))).
Proof.
  split.
  - destruct (extract_ngrams_ret nlp texts n top_k) as (out & Hout & Hm).
    destruct (most_common_ranking (ngram_stream nlp n texts) top_k)
      as (items & H).
    exists out, items. split; [assumption|]. now rewrite Hm.
  - destruct (top_syntactic_structures_ret nlp sentences top_n)
      as (out & Hout & Hm).
    destruct (most_common_ranking (sig_stream nlp sentences) top_n)
      as (items & H).
    exists out, items. split; [assumption|]. now rewrite Hm.
Qed.

Lemma records_ranked_witness :
  ranked (ngram_stream Fixture.nlp 2 Fixture.corpus)
         ([u "оператор"; u "открывать"], 1%Z)
         ([u "оператор"; u "закрывать"],
          occurrences [u "оператор"; u "закрывать"]
                      (ngram_stream Fixture.nlp 2 Fixture.corpus))
  /\ occurrences [u "оператор"; u "закрывать"]
                 (ngram_stream Fixture.nlp 2 Fixture.corpus) = 1%Z.
Proof.
  split; [|vm_compute; reflexivity].
  destruct (proj1 (records_ranked Fixture.nlp Fixture.corpus 2 1 [] 0))
    as (out & items & Hout & _ & _ & _ & Hcut).
  assert (E : extract_ngrams Fixture.nlp Fixture.corpus 2 1 =
              Ret [([u "оператор"; u "открывать"], 1%Z,
                    u "оператор открывает")])
    by (vm_compute; reflexivity).
  rewrite E in Hout. injection Hout as <-.
  apply Hcut.
  - left; reflexivity.
  - vm_compute. right; right; left; reflexivity.
  - vm_compute. intros [H|[]]; discriminate H.
Defined.

(** C7.  For every corpus and [top_n], [top_syntactic_structures]
    returns a list of records whose signatures all have at least 2
    labels; a root whose signature is shorter leaves the counter and the
    examples as they were. *)
Theorem signatures_at_least_two
    (nlp : str -> Doc) (sentences : list str) (top_n : Z) :
  (exists out,
     top_syntactic_structures nlp sentences top_n = Ret out /\
     Forall (fun r : StructureRecord => 2 <= length (fst (fst (fst r)))) out)
  /\
  (forall sent doc st root,
     length (clause_dep_signature doc root) < 2 ->
     struct_step sent doc st root = st).
Proof.
  split.
  - destruct (top_syntactic_structures_ret nlp sentences top_n)
      as (out & Hout & Hm).
    exists out. split; [assumption|].
    apply Forall_forall. intros r Hr.
    apply (in_map struct_item) in Hr. rewrite Hm in Hr.
    apply most_common_In in Hr. apply (in_map fst) in Hr.
    apply (proj1 (tally_keys (sig_stream nlp sentences))) in Hr.
    now apply sig_stream_long in Hr.
  - intros sent doc [counter examples] root Hshort.
    rewrite struct_step_unfold.
    assert (E : too_short (clause_dep_signature doc root) = true).
    { unfold too_short. apply orb_true_iff. right. apply Z.ltb_lt.
      unfold len. lia. }
    now rewrite E.
Qed.

Lemma signatures_at_least_two_witness :
  length (clause_dep_signature Fixture.yes_doc Fixture.yes) < 2
  /\ struct_step (u "Да.") Fixture.yes_doc ([], []) Fixture.yes = ([], []).
Proof.
  split; [vm_compute; lia|].
  apply (proj2 (signatures_at_least_two Fixture.nlp [] 0)).
  vm_compute; lia.
Defined.

(** C9.  On the empty corpus both miners return the empty list, for
    every [n], [top_k] and [top_n]. *)
Theorem empty_corpus_empty_result
    (nlp : str -> Doc) (n top_k top_n : Z) :
  extract_ngrams nlp [] n top_k = Ret []
  /\ top_syntactic_structures nlp [] top_n = Ret [].
Proof.
  unfold extract_ngrams, top_syntactic_structures. simpl.
  now rewrite !most_common_nil.
Qed.

(** C10.  On a non-empty corpus the locator called with the empty key
    returns the first sentence, after regulatory-phrase stripping,
    whatever the parse of that sentence is. *)
Theorem find_empty_key_returns_first
    (nlp : str -> Doc) (sent : str) (rest : list str) :
  find_sentence_with_ngram nlp (sent :: rest) [] =
  Some (remove_gost_phrases sent).
Proof.
  assert (H : window_in [] (doc_lemmas (nlp (remove_gost_phrases sent)))).
  { now exists [], (doc_lemmas (nlp (remove_gost_phrases sent))). }
  apply scan_window in H. simpl. now rewrite H.
Qed.





(* ================================================================== *)
(** * Further properties: frequencies, ranking and provenance *)
(* ================================================================== *)

(** ** First bindings *)

Lemma first_bindings_get {V} (occ : list (tuple * V)) : forall d key,
  get (first_bindings occ d) key =
  match get d key with Some v => Some v | None => get occ key end.
Proof.
  unfold first_bindings. induction occ as [|[k v] occ IH]; intros d key; simpl.
  - now destruct (get d key).
  - rewrite IH. unfold mem. destruct (get d k) as [w|] eqn:Ek; simpl.
    + destruct (get d key) eqn:E; [reflexivity|].
      destruct (tuple_eqb k key) eqn:Ekk; [|reflexivity].
      apply tuple_eqb_eq in Ekk. congruence.
    + destruct (tuple_eqb k key) eqn:Ekk.
      * apply tuple_eqb_eq in Ekk. subst k. now rewrite get_set_same, Ek.
      * apply tuple_eqb_neq in Ekk. now rewrite get_set_other.
Qed.

Lemma first_bindings_app {V} (o1 o2 : list (tuple * V)) d :
  first_bindings (o1 ++ o2) d = first_bindings o2 (first_bindings o1 d).
Proof. apply fold_left_app. Qed.

Lemma mapM_In {A B} (f : A -> result B) l out b :
  mapM f l = Ret out -> In b out -> exists a, In a l /\ f a = Ret b.
Proof.
  revert out. induction l as [|a l IH]; intros out; simpl.
  - intros H. injection H as <-. intros [].
  - destruct (f a) as [b'|] eqn:E; [|discriminate].
    destruct (mapM f l) as [bs|] eqn:E'; [|discriminate].
    intros H. injection H as <-. intros [<-|Hb].
    + exists a. auto.
    + destruct (IH bs eq_refl Hb) as (a' & Ha & Hf). exists a'. auto.
Qed.

Section WithProvider.
Variable nlp : str -> Doc.

Lemma ngram_loop_examples n lemmas tokens (idx : list Z) st :
  snd (fold_left (ngram_step n lemmas tokens) idx st) =
  first_bindings
    (filter (fun p => negb (existsb excluded (fst p)))
            (map (fun i => (slice lemmas i (i + n),
                            join (u " ") (slice tokens i (i + n)))) idx))
    (snd st).
Proof.
  revert st. induction idx as [|i idx IH]; intros [counts examples];
    [reflexivity|].
  cbn [fold_left map filter fst]. rewrite IH. unfold ngram_step.
  destruct (negb (existsb excluded (slice lemmas i (i + n)))); reflexivity.
Qed.

Lemma ngram_examples n texts st :
  snd (fold_left (ngram_text_step nlp n) texts st) =
  first_bindings (ngram_occurrences nlp n texts) (snd st).
Proof.
  revert st. induction texts as [|txt texts IH]; intros st; [reflexivity|].
  cbn [fold_left ngram_occurrences flat_map].
  rewrite IH, first_bindings_app. f_equal. apply ngram_loop_examples.
Qed.

Lemma struct_loop_examples sent doc (roots : list Token) st :
  snd (fold_left (struct_step sent doc) roots st) =
  first_bindings
    (map (fun sig => (sig, (sent, doc)))
         (filter (fun sig => negb (too_short sig))
                 (map (clause_dep_signature doc) roots)))
    (snd st).
Proof.
  revert st. induction roots as [|root roots IH]; intros [counter examples];
    [reflexivity|].
  cbn [fold_left map filter]. rewrite IH, struct_step_unfold.
  destruct (too_short (clause_dep_signature doc root)); [reflexivity|].
  cbn [negb map snd]. now rewrite setdefault_unfold.
Qed.

Lemma struct_examples sentences st :
  snd (fold_left (struct_sent_step nlp) sentences st) =
  first_bindings (sig_occurrences nlp sentences) (snd st).
Proof.
  revert st. induction sentences as [|sent sentences IH]; intros st;
    [reflexivity|].
  cbn [fold_left sig_occurrences flat_map].
  rewrite IH, first_bindings_app. f_equal. apply struct_loop_examples.
Qed.

(** The example of a record of [extract_ngrams] is the first binding of
    its key among the counted windows. *)
Lemma ngram_record_example texts n top_k out gram cnt ex :
  extract_ngrams nlp texts n top_k = Ret out -> In (gram, cnt, ex) out ->
  get (ngram_occurrences nlp n texts) gram = Some ex.
Proof.
  unfold extract_ngrams.
  pose proof (ngram_examples n texts ([], [])) as He.
  destruct (fold_left (ngram_text_step nlp n) texts ([], []))
    as [counts examples].
  simpl in He. intros Hm Hin.
  destruct (mapM_In _ _ _ Hm Hin) as ([g c] & _ & Hf).
  rewrite He, first_bindings_get in Hf. simpl in Hf.
  destruct (get (ngram_occurrences nlp n texts) g) as [e|] eqn:Eg;
    [|discriminate].
  injection Hf as <- <- <-. exact Eg.
Qed.

Lemma struct_record_example sentences top_n out sig freq sent doc :
  top_syntactic_structures nlp sentences top_n = Ret out ->
  In (sig, freq, sent, doc) out ->
  get (sig_occurrences nlp sentences) sig = Some (sent, doc).
Proof.
  unfold top_syntactic_structures.
  pose proof (struct_examples sentences ([], [])) as He.
  destruct (fold_left (struct_sent_step nlp) sentences ([], []))
    as [counter examples].
  simpl in He. intros Hm Hin.
  destruct (mapM_In _ _ _ Hm Hin) as ([g c] & _ & Hf).
  rewrite He, first_bindings_get in Hf. simpl in Hf.
  destruct (get (sig_occurrences nlp sentences) g) as [[s d]|] eqn:Eg;
    [|discriminate].
  injection Hf as <- <- <- <-. exact Eg.
Qed.

End WithProvider.

(** ** The records of the miners *)

(** X1.  Each miner returns a list, and its length is the smaller of
    [top_k] (resp. [top_n]; a value below 0 counts as 0) and the number
    of distinct keys that were counted. *)
Theorem miners_return_min_top_distinct
    (nlp : str -> Doc) (texts : list str) (n top_k : Z)
    (sentences : list str) (top_n : Z) :
  (exists out,
     extract_ngrams nlp texts n top_k = Ret out /\
     length out = Nat.min (Z.to_nat top_k)
                          (length (distinct [] (ngram_stream nlp n texts))))
  /\
  (exists out,
     top_syntactic_structures nlp sentences top_n = Ret out /\
     length out = Nat.min (Z.to_nat top_n)
                          (length (distinct [] (sig_stream nlp sentences)))).
Proof.
  split.
  - destruct (extract_ngrams_ret nlp texts n top_k) as (out & Hout & Hm).
    exists out. split; [assumption|].
    now rewrite <- (length_map ngram_item), Hm, most_common_length, tally_length.
  - destruct (top_syntactic_structures_ret nlp sentences top_n)
      as (out & Hout & Hm).
    exists out. split; [assumption|].
    now rewrite <- (length_map struct_item), Hm, most_common_length, tally_length.
Qed.

(** X2.  The count of every returned record is the number of times its
    key occurs among the counted windows (resp. signatures) of the
    corpus, and it is at least 1. *)
Theorem record_counts_are_frequencies
    (nlp : str -> Doc) (texts : list str) (n top_k : Z)
    (sentences : list str) (top_n : Z) :
  (exists out,
     extract_ngrams nlp texts n top_k = Ret out /\
     Forall (fun it => snd it = occurrences (fst it) (ngram_stream nlp n texts)
                       /\ (1 <= snd it)%Z)
            (map ngram_item out))
  /\
  (exists out,
     top_syntactic_structures nlp sentences top_n = Ret out /\
     Forall (fun it => snd it = occurrences (fst it) (sig_stream nlp sentences)
                       /\ (1 <= snd it)%Z)
            (map struct_item out)).
Proof.
  split.
  - destruct (extract_ngrams_ret nlp texts n top_k) as (out & Hout & Hm).
    exists out. split; [assumption|]. rewrite Hm.
    apply Forall_forall. intros [k v] H. now apply most_common_count in H.
  - destruct (top_syntactic_structures_ret nlp sentences top_n)
      as (out & Hout & Hm).
    exists out. split; [assumption|]. rewrite Hm.
    apply Forall_forall. intros [k v] H. now apply most_common_count in H.
Qed.

(** X3.  No key is returned twice: the keys of the records of either
    miner are pairwise distinct. *)
Theorem record_keys_distinct
    (nlp : str -> Doc) (texts : list str) (n top_k : Z)
    (sentences : list str) (top_n : Z) :
  (exists out,
     extract_ngrams nlp texts n top_k = Ret out /\
     NoDup (map fst (map ngram_item out)))
  /\
  (exists out,
     top_syntactic_structures nlp sentences top_n = Ret out /\
     NoDup (map fst (map struct_item out))).
Proof.
  split.
  - destruct (extract_ngrams_ret nlp texts n top_k) as (out & Hout & Hm).
    exists out. split; [assumption|]. rewrite Hm.
    apply most_common_keys_NoDup.
  - destruct (top_syntactic_structures_ret nlp sentences top_n)
      as (out & Hout & Hm).
    exists out. split; [assumption|]. rewrite Hm.
    apply most_common_keys_NoDup.
Qed.

Lemma omitted_item s n key :
  In key s -> ~ In key (map fst (most_common (tally s []) n)) ->
  Forall (fun it => (occurrences key s <= snd it)%Z) (most_common (tally s []) n).
Proof.
  intros Hin Hout. apply Forall_forall. intros a Ha.
  assert (Hb : In (key, occurrences key s) (tally s [])).
  { apply get_In. rewrite tally_count.
    apply occurrences_pos in Hin.
    destruct (Z.eqb_spec (occurrences key s) 0); [lia | reflexivity]. }
  apply (most_common_dominates s n a (key, occurrences key s) Ha Hb).
  intros H. apply Hout. change key with (fst (key, occurrences key s)).
  now apply in_map.
Qed.

(** X4.  An n-gram that was counted but is not among the returned
    records occurs no more often than any returned one. *)
Theorem omitted_ngram_not_more_frequent
    (nlp : str -> Doc) (texts : list str) (n top_k : Z)
    (out : list NgramRecord) (gram : tuple) :
  extract_ngrams nlp texts n top_k = Ret out ->
  In gram (ngram_stream nlp n texts) ->
  ~ In gram (map fst (map ngram_item out)) ->
  Forall (fun it => (occurrences gram (ngram_stream nlp n texts) <= snd it)%Z)
         (map ngram_item out).
Proof.
  intros Hout Hin Hno.
  destruct (extract_ngrams_ret nlp texts n top_k) as (out' & Hout' & Hm).
  rewrite Hout in Hout'. injection Hout' as <-. rewrite Hm in *.
  now apply omitted_item.
Qed.

Lemma omitted_ngram_not_more_frequent_witness :
  Forall (fun it =>
            (occurrences [u "открывать"; u "клапан"]
               (ngram_stream Fixture.nlp 2 Fixture.corpus) <= snd it)%Z)
         (map ngram_item [([u "оператор"; u "открывать"], 1%Z, u "оператор открывает")]).
Proof.
  apply (@omitted_ngram_not_more_frequent Fixture.nlp Fixture.corpus 2 1
           [([u "оператор"; u "открывать"], 1%Z, u "оператор открывает")]
           [u "открывать"; u "клапан"]).
  - vm_compute; reflexivity.
  - vm_compute. right; left; reflexivity.
  - vm_compute. intros [H|[]]; discriminate H.
Defined.

(** X5.  A signature that was counted but is not among the returned
    records occurs no more often than any returned one. *)
Theorem omitted_signature_not_more_frequent
    (nlp : str -> Doc) (sentences : list str) (top_n : Z)
    (out : list StructureRecord) (sig : tuple) :
  top_syntactic_structures nlp sentences top_n = Ret out ->
  In sig (sig_stream nlp sentences) ->
  ~ In sig (map fst (map struct_item out)) ->
  Forall (fun it => (occurrences sig (sig_stream nlp sentences) <= snd it)%Z)
         (map struct_item out).
Proof.
  intros Hout Hin Hno.
  destruct (top_syntactic_structures_ret nlp sentences top_n)
    as (out' & Hout' & Hm).
  rewrite Hout in Hout'. injection Hout' as <-. rewrite Hm in *.
  now apply omitted_item.
Qed.

Lemma omitted_signature_not_more_frequent_witness :
  Forall (fun it =>
            (occurrences [u "ROOT"; u "obj"]
               (sig_stream Fixture.nlp [Fixture.opens; Fixture.rule])
             <= snd it)%Z)
         (map struct_item
              [([u "ROOT"; u "nsubj"; u "obj"], 1%Z, Fixture.opens,
                Fixture.nlp Fixture.opens)]).
Proof.
  apply (@omitted_signature_not_more_frequent Fixture.nlp
           [Fixture.opens; Fixture.rule] 1
           [([u "ROOT"; u "nsubj"; u "obj"], 1%Z, Fixture.opens,
             Fixture.nlp Fixture.opens)]
           [u "ROOT"; u "obj"]).
  - vm_compute; reflexivity.
  - vm_compute. right; left; reflexivity.
  - vm_compute. intros [H|[]]; discriminate H.
Defined.

(** X6.  Asking for fewer records gives a prefix: for [k <= k'] the
    result for [k] is the first [k] records of the result for [k']. *)
Theorem smaller_top_is_prefix
    (nlp : str -> Doc) (texts : list str) (n k k' : Z)
    (sentences : list str) :
  (k <= k')%Z ->
  (exists out out',
     extract_ngrams nlp texts n k = Ret out /\
     extract_ngrams nlp texts n k' = Ret out' /\
     out = firstn (Z.to_nat k) out')
  /\
  (exists out out',
     top_syntactic_structures nlp sentences k = Ret out /\
     top_syntactic_structures nlp sentences k' = Ret out' /\
     out = firstn (Z.to_nat k) out').
Proof.
  intros Hk. split.
  - destruct (extract_ngrams_ret nlp texts n k') as (out' & Hout' & _).
    exists (firstn (Z.to_nat k) out'), out'. repeat split; [|assumption].
    revert Hout'. unfold extract_ngrams.
    destruct (fold_left (ngram_text_step nlp n) texts ([], []))
      as [counts examples].
    intros H. rewrite (most_common_prefix counts Hk). now apply mapM_firstn.
  - destruct (top_syntactic_structures_ret nlp sentences k')
      as (out' & Hout' & _).
    exists (firstn (Z.to_nat k) out'), out'. repeat split; [|assumption].
    revert Hout'. unfold top_syntactic_structures.
    destruct (fold_left (struct_sent_step nlp) sentences ([], []))
      as [counter examples].
    intros H. rewrite (most_common_prefix counter Hk). now apply mapM_firstn.
Qed.

Lemma smaller_top_is_prefix_witness :
  (exists out out',
     extract_ngrams Fixture.nlp Fixture.corpus 2 1 = Ret out /\
     extract_ngrams Fixture.nlp Fixture.corpus 2 2 = Ret out' /\
     out = firstn 1 out')
  /\
  (exists out out',
     top_syntactic_structures Fixture.nlp [Fixture.opens; Fixture.rule] 1
       = Ret out /\
     top_syntactic_structures Fixture.nlp [Fixture.opens; Fixture.rule] 2
       = Ret out' /\
     out = firstn 1 out').
Proof.
  apply (@smaller_top_is_prefix Fixture.nlp Fixture.corpus 2 1 2
           [Fixture.opens; Fixture.rule]).
  lia.
Defined.

Section WithProvider.
Variable nlp : str -> Doc.

(** X7.  The example of every record of [extract_ngrams] is the surface
    text of the first counted window, in corpus order, whose lemmas are
    the key of the record. *)
Theorem ngram_example_is_first_window
    (texts : list str) (n top_k : Z) :
  exists out,
    extract_ngrams nlp texts n top_k = Ret out /\
    Forall (fun r : NgramRecord =>
              Dict.get (ngram_occurrences nlp n texts) (fst (fst r))
              = Some (snd r)) out.
Proof.
  destruct (extract_ngrams_ret nlp texts n top_k) as (out & Hout & _).
  exists out. split; [assumption|].
  apply Forall_forall. intros [[gram cnt] ex] Hin.
  eapply ngram_record_example; eassumption.
Qed.

Lemma doc_tokens_length (doc : Doc) :
  length (doc_tokens doc) = length (doc_lemmas doc).
Proof. unfold doc_tokens, doc_lemmas. now rewrite !length_map. Qed.

(** X8.  Every record of [extract_ngrams] comes from one sentence of
    the corpus and one position in it: the key is the slice of the
    filtered lemmas at that position and the example joins the slice of
    the filtered lower-cased tokens at the same position; for [0 <= n]
    both slices have exactly [n] elements. *)
Theorem ngram_record_is_window
    (texts : list str) (n top_k : Z) (out : list NgramRecord)
    (gram : tuple) (cnt : Z) (ex : str) :
  extract_ngrams nlp texts n top_k = Ret out ->
  In (gram, cnt, ex) out ->
  exists txt i,
    In txt texts /\
    gram = slice (doc_lemmas (nlp txt)) i (i + n) /\
    ex = join (u " ") (slice (doc_tokens (nlp txt)) i (i + n)) /\
    window_in gram (doc_lemmas (nlp txt)) /\
    ((0 <= n)%Z ->
       length gram = Z.to_nat n /\
       length (slice (doc_tokens (nlp txt)) i (i + n)) = Z.to_nat n).
Proof.
  intros Hout Hin.
  assert (Hg : Dict.get (ngram_occurrences nlp n texts) gram = Some ex)
    by (eapply ngram_record_example; eassumption).
  apply get_In in Hg. unfold ngram_occurrences in Hg.
  apply in_flat_map in Hg. destruct Hg as (txt & Htxt & Hw).
  unfold window_examples in Hw. apply filter_In in Hw. destruct Hw as [Hw _].
  apply in_map_iff in Hw. destruct Hw as (i & E & Hi).
  injection E as <- <-. apply range_In in Hi.
  exists txt, i. repeat split; try assumption.
  - apply slice_window.
  - apply slice_length_nonneg; lia.
  - apply slice_length_nonneg; try lia.
    unfold len. rewrite doc_tokens_length. fold (len (doc_lemmas (nlp txt))). lia.
Qed.

Lemma range_empty (n : Z) : (n <= 0)%Z -> range n = [].
Proof. intros H. unfold range. now replace (Z.to_nat n) with 0 by lia. Qed.

(** X9.  Sentences with fewer than [n] filtered lemmas contribute
    nothing: removing them from the corpus leaves the result of
    [extract_ngrams] unchanged. *)
Theorem short_sentences_contribute_nothing
    (texts : list str) (n top_k : Z) :
  extract_ngrams nlp
    (filter (fun txt => (n <=? len (doc_lemmas (nlp txt)))%Z) texts) n top_k
  = extract_ngrams nlp texts n top_k.
Proof.
  unfold extract_ngrams.
  assert (H : forall st,
            fold_left (ngram_text_step nlp n)
              (filter (fun txt => (n <=? len (doc_lemmas (nlp txt)))%Z) texts) st
            = fold_left (ngram_text_step nlp n) texts st).
  { induction texts as [|txt texts IH]; intros st; [reflexivity|].
    cbn [filter fold_left].
    destruct (Z.leb_spec n (len (doc_lemmas (nlp txt)))) as [Hle|Hgt].
    - cbn [fold_left]. apply IH.
    - rewrite IH. f_equal. unfold ngram_text_step.
      now rewrite range_empty by lia. }
  now rewrite H.
Qed.

Lemma struct_record_origin
    (sentences : list str) (top_n : Z) (out : list StructureRecord)
    (sig : tuple) (freq : Z) (sent : str) (doc : Doc) :
  top_syntactic_structures nlp sentences top_n = Ret out ->
  In (sig, freq, sent, doc) out ->
  Dict.get (sig_occurrences nlp sentences) sig = Some (sent, doc) /\
  doc = nlp sent /\
  exists sent0 root,
    In sent0 sentences /\ sent = remove_gost_phrases sent0 /\
    In root doc /\ is_root root = true /\
    sig = clause_dep_signature doc root.
Proof.
  intros Hout Hin.
  assert (Hg : Dict.get (sig_occurrences nlp sentences) sig = Some (sent, doc))
    by (eapply struct_record_example; eassumption).
  split; [assumption|].
  apply get_In in Hg. unfold sig_occurrences in Hg.
  apply in_flat_map in Hg. destruct Hg as (sent0 & Hs0 & Hw).
  apply in_map_iff in Hw. destruct Hw as (sg & E & Hsg).
  injection E as -> <- <-. split; [reflexivity|].
  unfold doc_signatures in Hsg. apply filter_In in Hsg. destruct Hsg as [Hsg _].
  apply in_map_iff in Hsg. destruct Hsg as (root & <- & Hroot).
  apply filter_In in Hroot. destruct Hroot as [Hroot His].
  exists sent0, root. repeat split; assumption.
Qed.

(** X10.  Every record of [top_syntactic_structures] carries the first
    sentence, after [remove_gost_phrases], that produced its signature,
    together with the parse of that stripped sentence; the signature is
    the [clause_dep_signature] of a root token of that parse. *)
Theorem structure_record_provenance
    (sentences : list str) (top_n : Z) (out : list StructureRecord)
    (sig : tuple) (freq : Z) (sent : str) (doc : Doc) :
  top_syntactic_structures nlp sentences top_n = Ret out ->
  In (sig, freq, sent, doc) out ->
  Dict.get (sig_occurrences nlp sentences) sig = Some (sent, doc) /\
  doc = nlp sent /\
  exists sent0 root,
    In sent0 sentences /\ sent = remove_gost_phrases sent0 /\
    In root doc /\ is_root root = true /\
    sig = clause_dep_signature doc root.
Proof. apply struct_record_origin. Qed.

(** X11.  Every returned signature starts with the label "ROOT", and
    none of the labels that follow is one of the excluded dependency
    labels. *)
Theorem signatures_start_with_root
    (sentences : list str) (top_n : Z) :
  exists out,
    top_syntactic_structures nlp sentences top_n = Ret out /\
    Forall (fun r : StructureRecord =>
              exists labels,
                fst (fst (fst r)) = u "ROOT" :: labels /\
                Forall (fun l => ~ In l excluded_deps) labels) out.
Proof.
  destruct (top_syntactic_structures_ret nlp sentences top_n)
    as (out & Hout & _).
  exists out. split; [assumption|].
  apply Forall_forall. intros [[[sig freq] sent] doc] Hin.
  destruct (@struct_record_origin sentences top_n out sig freq sent doc
              Hout Hin)
    as (_ & _ & sent0 & root & _ & _ & _ & His & ->).
  unfold clause_dep_signature. eexists. split.
  - cbn [fst]. f_equal. unfold is_root in His. apply andb_prop in His.
    now apply str_eqb_eq.
  - apply Forall_forall. intros l Hl Hex.
    apply in_map_iff in Hl. destruct Hl as (child & <- & Hc).
    apply filter_In in Hc. destruct Hc as [_ Hc].
    apply negb_true_iff in Hc.
    assert (Ht : existsb (str_eqb (dep_ child)) excluded_deps = true).
    { apply existsb_exists. exists (dep_ child).
      split; [assumption | now apply str_eqb_eq]. }
    congruence.
Qed.

(** X12.  [find_sentence_with_ngram] on a concatenation of two lists
    of sentences answers from the first list when it has a match there,
    and otherwise as on the second list. *)
Theorem find_over_concatenation (a b : list str) (key : tuple) :
  find_sentence_with_ngram nlp (a ++ b) key =
  match find_sentence_with_ngram nlp a key with
  | Some found => Some found
  | None => find_sentence_with_ngram nlp b key
  end.
Proof.
  induction a as [|sent a IH]; [reflexivity|].
  simpl. destruct (existsb _ _); [reflexivity | exact IH].
Qed.

(** X13.  A text accepted by [is_real_sentence] has a word count, as
    [basic_stats] reports it, of at least 3, and a text whose word count
    is below 3 is rejected; for every text the word count lies between 0
    and the number of tokens of the parse. *)
Theorem real_sentences_have_three_words (text : str) :
  (is_real_sentence nlp text = true -> (3 <= fst (basic_stats nlp text))%Z) /\
  ((fst (basic_stats nlp text) < 3)%Z -> is_real_sentence nlp text = false) /\
  (0 <= fst (basic_stats nlp text) <= len (nlp text))%Z.
Proof.
  unfold is_real_sentence, basic_stats. cbn [fst]. repeat split.
  - intros H. apply andb_prop in H. destruct H as [H _]. now apply Z.leb_le.
  - intros H. apply andb_false_iff. left. now apply Z.leb_gt.
  - apply len_nonneg.
  - unfold len. apply inj_le. apply filter_length_le.
Qed.

End WithProvider.

Lemma real_sentences_have_three_words_witness :
  is_real_sentence Fixture.nlp Fixture.opens = true /\
  (3 <= fst (basic_stats Fixture.nlp Fixture.opens))%Z.
Proof.
  split; [vm_compute; reflexivity|].
  apply (proj1 (real_sentences_have_three_words Fixture.nlp Fixture.opens)).
  vm_compute; reflexivity.
Defined.

Lemma structure_record_provenance_witness :
  Dict.get (sig_occurrences Fixture.nlp [Fixture.gost_rule])
           [u "ROOT"; u "obj"]
    = Some (Fixture.rule, Fixture.nlp Fixture.rule) /\
  Fixture.nlp Fixture.rule = Fixture.nlp Fixture.rule /\
  exists sent0 root,
    In sent0 [Fixture.gost_rule] /\
    Fixture.rule = remove_gost_phrases sent0 /\
    In root (Fixture.nlp Fixture.rule) /\ is_root root = true /\
    [u "ROOT"; u "obj"] = clause_dep_signature (Fixture.nlp Fixture.rule) root.
Proof.
  apply (@structure_record_provenance Fixture.nlp [Fixture.gost_rule] 1
           [([u "ROOT"; u "obj"], 1%Z, Fixture.rule,
             Fixture.nlp Fixture.rule)]
           [u "ROOT"; u "obj"] 1%Z Fixture.rule (Fixture.nlp Fixture.rule)).
  - vm_compute; reflexivity.
  - left; reflexivity.
Defined.

Lemma ngram_record_is_window_witness :
  exists txt i,
    In txt Fixture.corpus /\
    [u "оператор"; u "открывать"] = slice (doc_lemmas (Fixture.nlp txt)) i (i + 2) /\
    u "оператор открывает"
      = join (u " ") (slice (doc_tokens (Fixture.nlp txt)) i (i + 2)) /\
    window_in [u "оператор"; u "открывать"] (doc_lemmas (Fixture.nlp txt)) /\
    ((0 <= 2)%Z ->
       length [u "оператор"; u "открывать"] = Z.to_nat 2 /\
       length (slice (doc_tokens (Fixture.nlp txt)) i (i + 2)) = Z.to_nat 2).
Proof.
  apply (@ngram_record_is_window Fixture.nlp Fixture.corpus 2 1
           [([u "оператор"; u "открывать"], 1%Z, u "оператор открывает")]
           [u "оператор"; u "открывать"] 1%Z (u "оператор открывает")).
  - vm_compute; reflexivity.
  - left; reflexivity.
Defined.

(** ** [remove_gost_phrases] only deletes *)

Lemma subseq_refl {A} (l : list A) : subseq l l.
Proof. induction l; [constructor | now apply subseq_keep]. Qed.

Lemma subseq_trans {A} (a b c : list A) : subseq a b -> subseq b c -> subseq a c.
Proof.
  intros Hab Hbc. revert a Hab. induction Hbc as [|x b c Hbc IH|x b c Hbc IH];
    intros a Hab.
  - assumption.
  - constructor. now apply IH.
  - inversion Hab; subst.
    + apply subseq_drop. now apply IH.
    + apply subseq_keep. now apply IH.
Qed.

Lemma subseq_length {A} (a b : list A) : subseq a b -> length a <= length b.
Proof. induction 1; simpl; lia. Qed.

Lemma subseq_app {A} (a b c d : list A) :
  subseq a b -> subseq c d -> subseq (a ++ c) (b ++ d).
Proof.
  induction 1; simpl; intros; auto.
  - apply subseq_drop. auto.
  - apply subseq_keep. auto.
Qed.

Lemma subseq_nil_l {A} (l : list A) : subseq [] l.
Proof. induction l; [constructor | now apply subseq_drop]. Qed.

Lemma subseq_rev {A} (a b : list A) : subseq a b -> subseq (rev a) (rev b).
Proof.
  induction 1 as [|x s t H IH|x s t H IH]; simpl.
  - constructor.
  - rewrite <- (app_nil_r (rev s)). apply subseq_app; [assumption|].
    apply subseq_nil_l.
  - apply subseq_app; [assumption | apply subseq_refl].
Qed.

Lemma drop_while_subseq p (s : str) : subseq (drop_while p s) s.
Proof.
  induction s as [|c s IH]; simpl; [constructor|].
  destruct (p c); [now apply subseq_drop | apply subseq_refl].
Qed.

Lemma strip_subseq (s : str) : subseq (strip s) s.
Proof.
  unfold strip, rstrip, lstrip.
  eapply subseq_trans; [|apply (drop_while_subseq isspace s)].
  rewrite <- (rev_involutive (drop_while isspace s)) at 2.
  apply subseq_rev. apply drop_while_subseq.
Qed.

Lemma delete_subseq r (s : str) : forall skip prev,
  subseq (Re.delete r skip prev s) s.
Proof.
  induction s as [|c s IH]; intros skip prev; [constructor|].
  cbn [Re.delete].
  destruct skip as [|n]; [|apply subseq_drop; apply IH].
  destruct (Re.match_at r prev (c :: s)) as [rest|].
  - destruct (length (c :: s) - length rest);
      [apply subseq_keep | apply subseq_drop]; apply IH.
  - apply subseq_keep; apply IH.
Qed.

(** X14.  [remove_gost_phrases] only deletes: its result is the text
    with some characters removed, never longer than the text. *)
Theorem remove_gost_phrases_only_deletes (text : str) :
  subseq (remove_gost_phrases text) text /\
  length (remove_gost_phrases text) <= length text.
Proof.
  assert (H : subseq (remove_gost_phrases text) text).
  { unfold remove_gost_phrases, Re.sub_empty.
    eapply subseq_trans; [apply strip_subseq | apply delete_subseq]. }
  split; [assumption | now apply subseq_length].
Qed.

(** X15.  A text without the letter "г" in either case is only
    stripped of its surrounding whitespace by [remove_gost_phrases]. *)
Theorem text_without_gost_is_only_stripped (text : str) :
  no_gost_start text -> remove_gost_phrases text = strip text.
Proof.
  intros H. unfold remove_gost_phrases, Re.sub_empty.
  rewrite <- (app_nil_r text) at 1. rewrite delete_copy by assumption.
  simpl. now rewrite app_nil_r.
Qed.

Lemma text_without_gost_is_only_stripped_witness :
  remove_gost_phrases (u " Оператор открывает клапан. ")
  = strip (u " Оператор открывает клапан. ").
Proof.
  apply (@text_without_gost_is_only_stripped (u " Оператор открывает клапан. ")).
  apply (@Forall_dec_true _ (fun c => cp_lower c <> 1075%N)
           (fun c => negb (cp_lower c =? 1075)%N)).
  - intros c H. apply N.eqb_neq. now apply negb_true_iff.
  - vm_compute; reflexivity.
Defined.

(** ** Trimmed text and joined labels *)

Lemma drop_while_starts p (s : str) :
  starts (fun c => p c = false) (drop_while p s).
Proof.
  induction s as [|c s IH]; simpl; [exact I|].
  destruct (p c) eqn:E; [assumption | exact E].
Qed.

Lemma drop_while_split p (s : str) :
  exists pre, s = pre ++ drop_while p s /\ all p pre.
Proof.
  induction s as [|c s (pre & E & Hp)]; simpl.
  - exists []. split; [reflexivity | constructor].
  - destruct (p c) eqn:Ec.
    + exists (c :: pre). split; [simpl; now f_equal | now constructor].
    + exists []. split; [reflexivity | constructor].
Qed.

Lemma strip_trimmed (s : str) : trimmed (strip s).
Proof.
  unfold trimmed, strip, rstrip, lstrip. split.
  - destruct (drop_while_split isspace (rev (drop_while isspace s)))
      as (pre & E & _).
    apply (f_equal (@rev N)) in E. rewrite rev_involutive, rev_app_distr in E.
    pose proof (drop_while_starts isspace s) as Hs. rewrite E in Hs.
    destruct (rev (drop_while isspace (rev (drop_while isspace s))));
      [exact I | exact Hs].
  - rewrite rev_involutive. apply drop_while_starts.
Qed.

Lemma strip_of_trimmed (s : str) : trimmed s -> strip s = s.
Proof.
  intros [H1 H2]. unfold strip, rstrip, lstrip.
  rewrite (drop_while_stop isspace s) by exact H1.
  rewrite (drop_while_stop isspace (rev s)) by exact H2.
  apply rev_involutive.
Qed.



Lemma plus_split (a b x y : str) :
  plus_free a -> plus_free b ->
  a ++ 43%N :: x = b ++ 43%N :: y -> a = b /\ x = y.
Proof.
  revert b. induction a as [|c a IH]; intros [|d b] Ha Hb E; simpl in E.
  - injection E as ->. now split.
  - injection E as <- _. exfalso. apply Hb. now left.
  - injection E as -> _. exfalso. apply Ha. now left.
  - injection E as -> E.
    destruct (IH b) as [-> ->]; try assumption; try now split.
    + intros H. apply Ha. now right.
    + intros H. apply Hb. now right.
Qed.

Lemma plus_end (a b x : str) : plus_free b -> a ++ 43%N :: x <> b.
Proof.
  intros Hb E. apply Hb. rewrite <- E. apply in_or_app. right. now left.
Qed.

Lemma join_cons (sep p : str) (rest : list str) :
  rest <> [] -> join sep (p :: rest) = p ++ sep ++ join sep rest.
Proof. destruct rest; [congruence | reflexivity]. Qed.

(** X16.  On non-empty signatures whose labels do not contain "+",
    [sig_to_str] is injective: the signature can be read back from the
    joined string. *)
Theorem sig_to_str_injective (sig1 sig2 : tuple) :
  sig1 <> [] -> sig2 <> [] ->
  Forall plus_free sig1 -> Forall plus_free sig2 ->
  sig_to_str sig1 = sig_to_str sig2 -> sig1 = sig2.
Proof.
  unfold sig_to_str. change (u "+") with [43%N].
  revert sig2. induction sig1 as [|a r1 IH]; intros [|b r2] H1 H2 F1 F2 E;
    try congruence.
  inversion F1 as [|? ? Ha Fr1]; inversion F2 as [|? ? Hb Fr2]; subst.
  destruct r1 as [|a' r1]; destruct r2 as [|b' r2].
  - simpl in E. now subst.
  - rewrite (@join_cons [43%N] b (b' :: r2)) in E by discriminate.
    simpl in E. symmetry in E. exfalso. now apply (plus_end _ _ Ha) in E.
  - rewrite (@join_cons [43%N] a (a' :: r1)) in E by discriminate.
    simpl in E. exfalso. now apply (plus_end _ _ Hb) in E.
  - rewrite (@join_cons [43%N] a (a' :: r1)), (@join_cons [43%N] b (b' :: r2)) in E
      by discriminate.
    simpl in E. apply plus_split in E; try assumption.
    destruct E as [-> E]. f_equal.
    apply IH; try assumption; discriminate.
Qed.

Lemma sig_to_str_injective_witness :
  [u "ROOT"; u "obj"]
  = clause_dep_signature (Fixture.nlp Fixture.rule)
      (Fixture.word "регулирует" "регулировать" "VERB" "ROOT" 0 0).
Proof.
  apply (@sig_to_str_injective
           [u "ROOT"; u "obj"]
           (clause_dep_signature (Fixture.nlp Fixture.rule)
              (Fixture.word "регулирует" "регулировать" "VERB" "ROOT" 0 0))).
  - discriminate.
  - vm_compute; discriminate.
  - repeat constructor; vm_compute; intuition discriminate.
  - vm_compute; repeat constructor; intuition discriminate.
  - vm_compute; reflexivity.
Defined.

(** ** Windows of length 0 *)

Section ZeroLength.
Variable nlp : str -> Doc.


Lemma slice_empty {A} (l : list A) (i : Z) : slice l i (i + 0) = [].
Proof. unfold slice. now rewrite Z.add_0_r, Nat.sub_diag. Qed.

Lemma map_const_repeat {A B} (b : B) (l : list A) :
  map (fun _ => b) l = repeat b (length l).
Proof. induction l; simpl; congruence. Qed.

Lemma windows_zero lemmas :
  windows 0 lemmas = repeat [] (Z.to_nat (len lemmas + 1)).
Proof.
  unfold windows. rewrite Z.sub_0_r.
  rewrite (map_ext _ (fun _ => @nil str)) by (intros; apply slice_empty).
  rewrite map_const_repeat.
  unfold range. rewrite length_map, length_seq.
  induction (Z.to_nat (len lemmas + 1)); simpl; congruence.
Qed.

Lemma empty_windows_nonneg texts : (0 <= empty_windows nlp texts)%Z.
Proof.
  unfold empty_windows. induction texts as [|t texts IH]; simpl; [lia|].
  pose proof (len_nonneg (doc_lemmas (nlp t))). lia.
Qed.

Lemma ngram_stream_zero texts :
  ngram_stream nlp 0 texts = repeat [] (Z.to_nat (empty_windows nlp texts)).
Proof.
  unfold ngram_stream, empty_windows.
  induction texts as [|t texts IH]; [reflexivity|].
  cbn [flat_map map fold_right]. rewrite IH, windows_zero.
  fold (empty_windows nlp texts).
  pose proof (empty_windows_nonneg texts).
  pose proof (len_nonneg (doc_lemmas (nlp t))).
  rewrite <- repeat_app. f_equal. lia.
Qed.

Lemma tally_repeat_empty m : forall k,
  tally (repeat [] m) [([], k)] = [([], (k + Z.of_nat m)%Z)].
Proof.
  induction m as [|m IH]; intros k.
  - simpl. now rewrite Z.add_0_r.
  - cbn [repeat]. unfold tally. cbn [fold_left].
    change (incr [([], k)] []) with [(@nil str, (k + 1)%Z)].
    fold (tally (repeat [] m) [([], (k + 1)%Z)]). rewrite IH.
    do 2 f_equal. lia.
Qed.

(** X17.  For [n = 0], a non-empty corpus and [1 <= top_k],
    [extract_ngrams] returns the single record of the empty key with
    the empty example, counted once for every position of every
    sentence (the number of filtered lemmas plus one). *)
Theorem zero_length_ngrams (txt : str) (texts : list str) (top_k : Z) :
  (1 <= top_k)%Z ->
  extract_ngrams nlp (txt :: texts) 0 top_k =
  Ret [([], empty_windows nlp (txt :: texts), [])].
Proof.
  intros Hk.
  destruct (extract_ngrams_ret nlp (txt :: texts) 0 top_k) as (out & Hout & Hm).
  rewrite Hout. f_equal.
  rewrite ngram_stream_zero in Hm.
  pose proof (empty_windows_nonneg texts) as Hn.
  pose proof (len_nonneg (doc_lemmas (nlp txt))) as Hl.
  assert (Hpos : exists m, Z.to_nat (empty_windows nlp (txt :: texts)) = S m
                           /\ empty_windows nlp (txt :: texts) = Z.of_nat (S m)).
  { exists (Z.to_nat (empty_windows nlp (txt :: texts)) - 1).
    unfold empty_windows in *. cbn [map fold_right] in *. lia. }
  destruct Hpos as (m & Em & Ez). rewrite Em in Hm.
  unfold tally in Hm. cbn [repeat fold_left] in Hm.
  change (fold_left incr (repeat [] m) (incr [] []))
    with (tally (repeat [] m) [([], 1%Z)]) in Hm.
  rewrite tally_repeat_empty in Hm.
  unfold most_common in Hm. cbn [sorted_desc insert_desc] in Hm.
  destruct (Z.to_nat top_k) as [|k] eqn:Ek; [lia|].
  cbn [firstn] in Hm. rewrite firstn_nil in Hm.
  destruct out as [|[[gram cnt] ex] [|r out]]; try discriminate Hm.
  cbn [map ngram_item fst] in Hm. injection Hm as -> ->.
  assert (Hex : Dict.get (ngram_occurrences nlp 0 (txt :: texts)) [] = Some ex).
  { eapply ngram_record_example; [exact Hout | now left]. }
  apply get_In in Hex. unfold ngram_occurrences in Hex.
  apply in_flat_map in Hex. destruct Hex as (t & _ & Hw).
  unfold window_examples in Hw. apply filter_In in Hw. destruct Hw as [Hw _].
  apply in_map_iff in Hw. destruct Hw as (i & E & _).
  rewrite !slice_empty in E. injection E as <-.
  replace (empty_windows nlp (txt :: texts)) with (1 + Z.of_nat m)%Z by lia.
  reflexivity.
Qed.

End ZeroLength.

Lemma zero_length_ngrams_witness :
  extract_ngrams Fixture.nlp Fixture.corpus 0 3 = Ret [([], 12%Z, [])].
Proof.
  apply (@zero_length_ngrams Fixture.nlp Fixture.opens
           [Fixture.closes; Fixture.checks] 3).
  lia.
Defined.

(* ================================================================== *)
(** * Further properties: text cleaning *)
(* ================================================================== *)

Module RxFacts.
Import Rx.

Section Matcher.
Variable R : Type.
Implicit Types (k : cont R).

Lemma lit_match l : forall prev s cap k,
  lit l prev (l ++ s) cap k = k (after prev l) s cap.
Proof.
  induction l as [|x l IH]; intros prev s cap k; [reflexivity|].
  cbn [app lit]. rewrite N.eqb_refl. apply IH.
Qed.

Lemma lit_head l prev c s cap k :
  starts (fun x => x <> c) l -> l <> [] -> lit l prev (c :: s) cap k = None.
Proof.
  destruct l as [|x l]; [congruence|]. intros Hx _. cbn [lit].
  destruct (N.eqb_spec x c); [|reflexivity]. now elim Hx.
Qed.

Lemma lit_end l prev cap k : l <> [] -> lit l prev [] cap k = None.
Proof. destruct l; [congruence | reflexivity]. Qed.

Lemma rx_rep_stop cs lo hi prev s cap k :
  starts (fun c => in_cset cs c = false) s ->
  rep cs lo hi prev s cap k = match lo with O => k prev s cap | S _ => None end.
Proof. destruct s as [|c s]; simpl; [reflexivity|]. now intros ->. Qed.

Lemma rx_rep_greedy cs xs : forall lo hi prev rest cap k r,
  all (in_cset cs) xs ->
  starts (fun c => in_cset cs c = false) rest ->
  lo <= length xs ->
  match hi with Some h => length xs <= h | None => True end ->
  k (after prev xs) rest cap = Some r ->
  rep cs lo hi prev (xs ++ rest) cap k = Some r.
Proof.
  induction xs as [|c xs IH]; intros lo hi prev rest cap k r Hall Hrest Hlo Hhi Hk.
  - simpl app. rewrite rx_rep_stop by assumption.
    simpl in Hlo. now destruct lo; [|lia].
  - inversion Hall as [|? ? Hc Hxs]; subst. simpl app. simpl rep.
    rewrite Hc.
    assert (Hm : Re.more hi = true).
    { destruct hi as [[|h]|]; simpl in *; try reflexivity; lia. }
    rewrite Hm. simpl andb. cbv iota.
    rewrite (IH (pred lo) (option_map pred hi) (Some c) rest cap k r); auto.
    + simpl in Hlo. lia.
    + destruct hi as [h|]; simpl in *; [lia | exact I].
Qed.


Lemma lit_inv l : forall prev s cap k x,
  lit l prev s cap k = Some x -> reads s cap k x.
Proof.
  induction l as [|c l IH]; intros prev s cap k x H.
  - exists [], s, prev, cap. auto.
  - destruct s as [|d s]; [discriminate|]. cbn [lit] in H.
    destruct (N.eqb_spec c d); [|discriminate]. subst d.
    destruct (IH _ _ _ _ _ H) as (span & rest & p & c' & -> & Hk & Hc).
    exists (c :: span), rest, p, c'. repeat split; auto.
    destruct Hc as [->|(a & g & b & -> & ->)]; [now left|].
    right. exists (c :: a), g, b. auto.
Qed.

Lemma rep_inv cs s : forall lo hi prev cap k x,
  rep cs lo hi prev s cap k = Some x -> reads s cap k x.
Proof.
  induction s as [|c s IH]; intros lo hi prev cap k x H.
  - simpl in H. destruct lo; [|discriminate].
    exists [], [], prev, cap. auto.
  - simpl in H.
    assert (Hstop : match lo with O => k prev (c :: s) cap | S _ => None end
                    = Some x -> reads (c :: s) cap k x).
    { destruct lo; [|discriminate]. intros Hk.
      exists [], (c :: s), prev, cap. auto. }
    destruct (in_cset cs c && Re.more hi); [|now apply Hstop].
    destruct (rep cs (pred lo) (option_map pred hi) (Some c) s cap k)
      as [y|] eqn:E; [|now apply Hstop].
    injection H as ->.
    destruct (IH _ _ _ _ _ _ E) as (span & rest & p & c' & -> & Hk & Hc).
    exists (c :: span), rest, p, c'. repeat split; auto.
    destruct Hc as [->|(a & g & b & -> & ->)]; [now left|].
    right. exists (c :: a), g, b. auto.
Qed.

Lemma reads_then s cap (k1 k2 : cont R) x :
  reads s cap k1 x ->
  (forall p s' c, k1 p s' c = Some x -> reads s' c k2 x) ->
  reads s cap k2 x.
Proof.
  intros (span & rest & p & c' & -> & Hk & Hc) H.
  destruct (H _ _ _ Hk) as (span2 & rest2 & p2 & c2 & -> & Hk2 & Hc2).
  exists (span ++ span2), rest2, p2, c2. rewrite app_assoc.
  repeat split; auto.
  destruct Hc2 as [->|(a & g & b & -> & ->)].
  - destruct Hc as [->|(a & g & b & -> & ->)]; [now left|].
    right. exists a, g, (b ++ span2). now rewrite <- !app_assoc.
  - right. exists (span ++ a), g, b. now rewrite <- !app_assoc.
Qed.

Lemma run_inv r : forall prev s cap k x,
  run r prev s cap k = Some x -> reads s cap k x.
Proof.
  induction r as [l|cs| |lo hi cs|r IH|r1 IH1 r2 IH2|r1 IH1 r2 IH2|r IH];
    intros prev s cap k x H; cbn [run] in H.
  - now apply lit_inv in H.
  - destruct s as [|c s]; [discriminate|].
    destruct (in_cset cs c); [|discriminate].
    exists [c], s, (Some c), cap. auto.
  - destruct (xorb _ _); [|discriminate]. exists [], s, prev, cap. auto.
  - now apply rep_inv in H.
  - destruct (run r prev s cap k) as [y|] eqn:E.
    + injection H as ->. now apply IH in E.
    + exists [], s, prev, cap. auto.
  - apply IH1 in H. eapply reads_then; [exact H|].
    intros p s' c Hr. now apply IH2 in Hr.
  - destruct (run r1 prev s cap k) as [y|] eqn:E.
    + injection H as ->. now apply IH1 in E.
    + now apply IH2 in H.
  - apply IH in H. destruct H as (span & rest & p & c' & -> & Hk & _).
    exists span, rest, p, (Some (firstn (length (span ++ rest) - length rest)
                                        (span ++ rest))).
    repeat split; auto.
    right. exists [], span, []. split; [now rewrite app_nil_r|].
    f_equal. rewrite length_app.
    replace (length span + length rest - length rest) with (length span) by lia.
    rewrite firstn_app, firstn_all, Nat.sub_diag. simpl. apply app_nil_r.
Qed.

End Matcher.

(** A match reads a prefix of the text; the group holds a part of it. *)
Lemma match_at_inv r prev s rest cap :
  match_at r prev s = Some (rest, cap) ->
  exists span, s = span ++ rest /\
    (cap = None \/ exists a g b, span = a ++ g ++ b /\ cap = Some g).
Proof.
  unfold match_at. intros H. apply run_inv in H.
  destruct H as (span & rest' & p & c' & -> & Hk & Hc).
  injection Hk as -> ->. exists span. split; [reflexivity|].
  destruct Hc as [->|Hc]; auto.
Qed.

(** ** The scan *)

Lemma scan_skip r tpl xs : forall prev post,
  scan r tpl (length xs) prev (xs ++ post) = scan r tpl 0 (after prev xs) post.
Proof.
  induction xs as [|c xs IH]; intros prev post; [reflexivity|].
  cbn [length app scan]. apply IH.
Qed.

Lemma scan_match r tpl prev span post cap :
  span <> [] ->
  match_at r prev (span ++ post) = Some (post, cap) ->
  scan r tpl 0 prev (span ++ post) =
  expand tpl cap ++ scan r tpl 0 (after prev span) post.
Proof.
  destruct span as [|c span]; [congruence|]. intros _ Hm.
  simpl app in *. cbn [scan]. rewrite Hm.
  replace (length (c :: span ++ post) - length post) with (S (length span))
    by (cbn [length]; rewrite length_app; lia).
  f_equal. apply (scan_skip r tpl span (Some c) post).
Qed.


Lemma scan_copy r tpl pre : forall prev s,
  unmatched r pre s ->
  scan r tpl 0 prev (pre ++ s) = pre ++ scan r tpl 0 (after prev pre) s.
Proof.
  induction pre as [|c pre IH]; intros prev s Hpre; [reflexivity|].
  cbn [app scan]. rewrite (Hpre [] c pre prev eq_refl).
  f_equal. apply IH. intros a d b p E. apply (Hpre (c :: a) d b p).
  now rewrite E.
Qed.

Lemma scan_id r tpl s prev :
  unmatched r s [] -> (forall p, match_at r p [] = None) ->
  scan r tpl 0 prev s = s.
Proof.
  intros Hs He. rewrite <- (app_nil_r s) at 1. rewrite scan_copy by assumption.
  cbn [scan]. now rewrite He, app_nil_r.
Qed.

(** Without a group reference the result is made of characters of the
    text and of the template. *)
Lemma scan_chars (P : N -> Prop) r tpl (s : str) :
  (forall cap, Forall P (expand tpl cap)) -> Forall P s ->
  forall skip prev, Forall P (scan r tpl skip prev s).
Proof.
  intros Ht Hs. induction Hs as [|c s Hc Hs IH]; intros skip prev.
  - cbn [scan]. destruct skip; [|constructor].
    destruct (match_at r prev []) as [[rest cap]|]; [apply Ht | constructor].
  - cbn [scan]. destruct skip as [|n]; [|apply IH].
    destruct (match_at r prev (c :: s)) as [[rest cap]|].
    + destruct (length (c :: s) - length rest).
      * apply Forall_app. split; [apply Ht|]. constructor; [assumption | apply IH].
      * apply Forall_app. split; [apply Ht | apply IH].
    + constructor; [assumption | apply IH].
Qed.

(** Replacing by the group or by nothing only deletes characters. *)
Lemma cap_subseq tpl cap span :
  (forall cap, expand tpl cap = [] \/
               exists g, cap = Some g /\ expand tpl cap = g) ->
  (cap = None \/ exists a g b, span = a ++ g ++ b /\ cap = Some g) ->
  subseq (expand tpl cap) span.
Proof.
  intros Ht Hc. destruct (Ht cap) as [E|(g & Eg & E)]; rewrite E.
  - apply subseq_nil_l.
  - destruct Hc as [Hc|(a & g' & b & Es & Hc)]; [congruence|].
    assert (g' = g) by congruence. subst g' span.
    rewrite <- (app_nil_l g) at 1. apply subseq_app; [apply subseq_nil_l|].
    rewrite <- (app_nil_r g) at 1. apply subseq_app;
      [apply subseq_refl | apply subseq_nil_l].
Qed.

Lemma subseq_nil_inv {A} (l : list A) : subseq l [] -> l = [].
Proof. now inversion 1. Qed.

Lemma scan_subseq r tpl :
  (forall cap, expand tpl cap = [] \/
               exists g, cap = Some g /\ expand tpl cap = g) ->
  forall n s, length s <= n -> forall prev, subseq (scan r tpl 0 prev s) s.
Proof.
  intros Ht. induction n as [|n IH]; intros s Hn prev.
  - destruct s; [|simpl in Hn; lia]. cbn [scan].
    destruct (match_at r prev []) as [[rest cap]|] eqn:E; [|constructor].
    apply match_at_inv in E. destruct E as (span & E & Hc).
    symmetry in E. apply app_eq_nil in E. destruct E as [-> ->].
    apply (cap_subseq tpl Ht Hc).
  - destruct s as [|c s]; [apply (IH [] (Nat.le_0_l n))|].
    cbn [scan]. destruct (match_at r prev (c :: s)) as [[rest cap]|] eqn:E.
    + apply match_at_inv in E. destruct E as (span & E & Hc).
      pose proof (cap_subseq tpl Ht Hc) as Hcap.
      destruct span as [|d span].
      * simpl in E. subst rest. rewrite Nat.sub_diag.
        apply subseq_nil_inv in Hcap. rewrite Hcap. cbn [app].
        apply subseq_keep. apply IH. simpl in Hn. lia.
      * simpl in E. injection E as <- ->.
        replace (length (c :: span ++ rest) - length rest)
          with (S (length span)) by (cbn [length]; rewrite length_app; lia).
        rewrite (scan_skip r tpl span (Some c) rest).
        change (c :: span ++ rest) with ((c :: span) ++ rest).
        apply subseq_app; [assumption|]. apply IH.
        simpl in Hn. rewrite length_app in Hn. lia.
    + apply subseq_keep. apply IH. simpl in Hn. lia.
Qed.

Lemma sub_subseq r tpl text :
  (forall cap, expand tpl cap = [] \/
               exists g, cap = Some g /\ expand tpl cap = g) ->
  subseq (sub r tpl text) text.
Proof. intros H. unfold sub. eapply scan_subseq; [exact H | apply Nat.le_refl]. Qed.

End RxFacts.

Module CleanFacts.
Import RxFacts Rx.

Lemma subseq_Forall {A} (P : A -> Prop) (a b : list A) :
  subseq a b -> Forall P b -> Forall P a.
Proof.
  induction 1 as [|x s t H IH|x s t H IH]; intros Hb.
  - constructor.
  - inversion Hb; subst. auto.
  - inversion Hb; subst. constructor; auto.
Qed.

(** Deleting the characters of a set. *)
Lemma scan_one cs (s : str) : forall prev,
  scan (One cs) [] 0 prev s = filter (fun c => negb (in_cset cs c)) s.
Proof.
  induction s as [|c s IH]; intros prev; [reflexivity|].
  cbn [scan filter]. unfold match_at. cbn [run].
  destruct (in_cset cs c); cbn [negb].
  - replace (length (c :: s) - length s) with 1 by (cbn [length]; lia).
    cbn [expand flat_map app]. apply IH.
  - f_equal. apply IH.
Qed.

Lemma filter_all {A} (f : A -> bool) (l : list A) :
  Forall (fun x => f x = true) l -> filter f l = l.
Proof. induction 1 as [|x l Hx _ IH]; simpl; [reflexivity|]. now rewrite Hx, IH. Qed.

(** A pattern that starts with a character of a set matches only where
    such a character stands. *)
Lemma guarded_head cs r' prev c s :
  in_cset cs c = false -> match_at (Then (One cs) r') prev (c :: s) = None.
Proof. intros H. unfold match_at. cbn [run]. now rewrite H. Qed.

Lemma guarded_end cs r' prev : match_at (Then (One cs) r') prev [] = None.
Proof. reflexivity. Qed.

Lemma guarded_id cs r' tpl prev (s : str) :
  Forall (fun c => in_cset cs c = false) s ->
  scan (Then (One cs) r') tpl 0 prev s = s.
Proof.
  intros H. apply scan_id; [|intros; apply guarded_end].
  intros a c b p E. rewrite app_nil_r. apply guarded_head.
  subst s. apply Forall_app in H. destruct H as [_ H]. now inversion H.
Qed.

(** ** Whitespace runs *)

Lemma ws_in c : in_cset (only [Re.Space]) c = isspace c.
Proof. unfold in_cset. simpl. now rewrite orb_false_r. Qed.

Lemma ws_nomatch prev c s :
  isspace c = false -> match_at whitespace_run prev (c :: s) = None.
Proof.
  intros H. unfold match_at, whitespace_run. cbn [run].
  rewrite rx_rep_stop; [reflexivity|]. cbn [starts]. now rewrite ws_in.
Qed.

Lemma ws_match prev (ws rest : str) :
  ws <> [] -> all isspace ws -> starts (fun c => isspace c = false) rest ->
  match_at whitespace_run prev (ws ++ rest) = Some (rest, None).
Proof.
  intros Hne Hws Hrest. unfold match_at, whitespace_run. cbn [run].
  apply rx_rep_greedy; try exact I; try reflexivity.
  - revert Hws. apply Forall_impl. intros c. now rewrite ws_in.
  - destruct rest as [|c rest]; [exact I|]. cbn [starts] in *. now rewrite ws_in.
  - destruct ws; [congruence | simpl; lia].
Qed.

Lemma squeeze_single_spaced : forall n (s : str), length s <= n -> forall prev,
  single_spaced (scan whitespace_run [Text (u " ")] 0 prev s) /\
  (starts (fun c => isspace c = false) s ->
   starts (fun c => isspace c = false)
          (scan whitespace_run [Text (u " ")] 0 prev s)).
Proof.
  induction n as [|n IH]; intros s Hn prev.
  - destruct s; [|simpl in Hn; lia]. cbn. auto.
  - destruct s as [|c s]; [cbn; auto|].
    destruct (isspace c) eqn:Ec.
    + destruct (drop_while_split isspace s) as (ws & Es & Hws).
      assert (Hm : match_at whitespace_run prev ((c :: ws) ++ drop_while isspace s)
                   = Some (drop_while isspace s, None)).
      { apply ws_match; [discriminate | now constructor |].
        apply drop_while_starts. }
      rewrite Es at 1 2. change (c :: ws ++ drop_while isspace s)
        with ((c :: ws) ++ drop_while isspace s).
      rewrite (@scan_match whitespace_run [Text (u " ")] prev (c :: ws)
                (drop_while isspace s) None) by (discriminate || exact Hm).
      cbn [expand flat_map app].
      assert (Hlen : length (drop_while isspace s) <= n).
      { pose proof (subseq_length (drop_while_subseq isspace s)).
        simpl in Hn. lia. }
      destruct (IH _ Hlen (after prev (c :: ws))) as [Hs Hst].
      split.
      * cbn [single_spaced]. split; [|assumption].
        intros _. split; [reflexivity|]. apply Hst. apply drop_while_starts.
      * cbn [starts]. congruence.
    + cbn [scan]. rewrite ws_nomatch by assumption.
      assert (Hlen : length s <= n) by (simpl in Hn; lia).
      destruct (IH _ Hlen (Some c)) as [Hs _].
      split; [|intros _; exact Ec].
      cbn [single_spaced]. split; [|assumption]. congruence.
Qed.

Lemma single_spaced_fixed (s : str) : forall prev,
  single_spaced s -> scan whitespace_run [Text (u " ")] 0 prev s = s.
Proof.
  induction s as [|c s IH]; intros prev Hs; [reflexivity|].
  cbn [single_spaced] in Hs. destruct Hs as [Hc Hs].
  destruct (isspace c) eqn:Ec.
  - destruct (Hc eq_refl) as [-> Hst].
    assert (Hm : match_at whitespace_run prev ([32%N] ++ s) = Some (s, None)).
    { apply ws_match; [discriminate | now repeat constructor | assumption]. }
    change (32%N :: s) with ([32%N] ++ s) at 1.
    rewrite (@scan_match whitespace_run [Text (u " ")] prev [32%N] s None)
      by (discriminate || exact Hm).
    cbn [expand flat_map app]. change (u " ") with [32%N]. cbn [app].
    f_equal. now apply IH.
  - cbn [scan]. rewrite ws_nomatch by assumption. f_equal. now apply IH.
Qed.

Lemma single_spaced_suffix (a b : str) : single_spaced (a ++ b) -> single_spaced b.
Proof. induction a as [|c a IH]; [auto|]. cbn [app single_spaced]. tauto. Qed.

Lemma single_spaced_prefix (a b : str) : single_spaced (a ++ b) -> single_spaced a.
Proof.
  induction a as [|c a IH]; [constructor|]. cbn [app single_spaced].
  intros [Hc Hs]. split; [|auto].
  intros E. destruct (Hc E) as [-> Hst]. split; [reflexivity|].
  destruct a; [exact I | exact Hst].
Qed.

Lemma single_spaced_strip (s : str) : single_spaced s -> single_spaced (strip s).
Proof.
  intros H. unfold strip, rstrip, lstrip.
  destruct (drop_while_split isspace s) as (pre & E & _).
  rewrite E in H. apply single_spaced_suffix in H.
  destruct (drop_while_split isspace (rev (drop_while isspace s)))
    as (pre' & E' & _).
  apply (f_equal (@rev N)) in E'. rewrite rev_involutive, rev_app_distr in E'.
  rewrite E' in H. now apply single_spaced_prefix in H.
Qed.
End CleanFacts.

Import RxFacts CleanFacts Rx.

(** ** [remove_brackets] *)

Lemma bracket_free_space : is_bracket 32 = false.
Proof. reflexivity. Qed.

Lemma bracket_free_result (text : str) :
  Forall (fun c => is_bracket c = false) (remove_brackets text).
Proof.
  unfold remove_brackets.
  eapply subseq_Forall; [apply strip_subseq|].
  apply scan_chars.
  - intros cap. repeat constructor.
  - unfold sub at 1. rewrite scan_one. apply Forall_forall.
    intros c Hc. apply filter_In in Hc. destruct Hc as [_ Hc].
    now apply negb_true_iff in Hc.
Qed.

(** X18.  The result of [remove_brackets] contains none of the four
    bracket characters. *)
Theorem remove_brackets_no_brackets (text : str) :
  Forall (fun c => is_bracket c = false) (remove_brackets text).
Proof. apply bracket_free_result. Qed.

Lemma single_spaced_result (text : str) :
  single_spaced (remove_brackets text) /\ trimmed (remove_brackets text).
Proof.
  unfold remove_brackets. split; [|apply strip_trimmed].
  apply single_spaced_strip. unfold sub at 1.
  eapply squeeze_single_spaced. apply Nat.le_refl.
Qed.

(** X19.  In the result of [remove_brackets] every whitespace character
    is a single space between two non-whitespace characters: whitespace
    runs are squeezed and the ends are trimmed. *)
Theorem remove_brackets_single_spaced (text : str) :
  single_spaced (remove_brackets text) /\ trimmed (remove_brackets text).
Proof. apply single_spaced_result. Qed.

Lemma not_bracket c : is_bracket c = false ->
  in_cset (only [Re.Ch 40]) c = false /\ in_cset (only [Re.Ch 91]) c = false.
Proof.
  unfold is_bracket, any_bracket, in_cset, only. cbn [negated items existsb item_in].
  intros H.
  destruct (40 =? c)%N, (41 =? c)%N, (91 =? c)%N, (93 =? c)%N;
    cbn in *; split; congruence.
Qed.

(** X20.  [remove_brackets] is idempotent. *)
Theorem remove_brackets_idempotent (text : str) :
  remove_brackets (remove_brackets text) = remove_brackets text.
Proof.
  pose proof (bracket_free_result text) as Hb.
  destruct (single_spaced_result text) as [Hs Ht].
  set (x := remove_brackets text) in *. unfold remove_brackets at 1.
  unfold sub, round_brackets, square_brackets.
  rewrite (@guarded_id (only [Re.Ch 40]) _ [] None x).
  2:{ revert Hb. apply Forall_impl. intros c Hc. now apply not_bracket. }
  rewrite (@guarded_id (only [Re.Ch 91]) _ [] None x).
  2:{ revert Hb. apply Forall_impl. intros c Hc. now apply not_bracket. }
  rewrite scan_one, filter_all.
  2:{ revert Hb. apply Forall_impl. intros c Hc.
      unfold is_bracket in Hc. now rewrite Hc. }
  rewrite single_spaced_fixed by assumption.
  now apply strip_of_trimmed.
Qed.

(** ** [clean_links] *)

(** X21.  [clean_links] only deletes: its result is the text with some
    characters removed, never longer than the text. *)
Theorem clean_links_only_deletes (text : str) :
  subseq (clean_links text) text /\ length (clean_links text) <= length text.
Proof.
  assert (H : subseq (clean_links text) text).
  { unfold clean_links.
    eapply subseq_trans; [apply strip_subseq|].
    eapply subseq_trans; [apply sub_subseq; intros; now left|].
    eapply subseq_trans; [apply sub_subseq|apply sub_subseq; intros; now left].
    intros [g|]; [right; exists g; split; [reflexivity | apply app_nil_r]
                 | now left]. }
  split; [assumption | now apply subseq_length].
Qed.

(** X22.  The three cleaning functions return text that neither starts
    nor ends with whitespace. *)
Theorem cleaners_return_trimmed_text (text : str) :
  trimmed (clean_links text) /\ trimmed (remove_brackets text) /\
  trimmed (remove_gost_phrases text).
Proof. repeat split; apply strip_trimmed. Qed.

Module LinkFacts.
Import ClassFacts RxFacts CleanFacts Rx.

Lemma after_nonempty (xs : str) p q : xs <> [] -> after p xs = after q xs.
Proof.
  destruct xs as [|c xs]; [congruence|]. reflexivity.
Qed.

Lemma space_not_word c : isspace c = true -> Re.is_word (Some c) = false.
Proof. intros H. simpl. classes. Qed.

Section Url.
Variable R : Type.
Implicit Types (k : cont R).

Lemma scheme_none prev s cap k :
  starts (fun d => d <> 104%N /\ d <> 119%N) s ->
  run url_scheme prev s cap k = None.
Proof.
  intros Hs. unfold url_scheme. cbn [run].
  change (u "http") with [104%N; 116%N; 116%N; 112%N].
  change (u "www.") with [119%N; 119%N; 119%N; 46%N].
  destruct s as [|d s]; [reflexivity|]. destruct Hs as [Hh Hw].
  cbn [lit]. destruct (N.eqb_spec 104 d); [congruence|].
  destruct (N.eqb_spec 119 d); [congruence | reflexivity].
Qed.

Lemma scheme_match scheme prev s cap k :
  is_scheme scheme ->
  run url_scheme prev (scheme ++ s) cap k = k (after prev scheme) s cap.
Proof.
  unfold url_scheme. cbn [run].
  change (u "http") with [104%N; 116%N; 116%N; 112%N].
  change (u "://") with [58%N; 47%N; 47%N].
  change (u "www.") with [119%N; 119%N; 119%N; 46%N].
  intros [ -> | [ -> | -> ] ].
  - change (u "http://") with [104%N; 116%N; 116%N; 112%N; 58%N; 47%N; 47%N].
    cbn. now destruct (k (Some 47%N) s cap).
  - change (u "https://")
      with [104%N; 116%N; 116%N; 112%N; 115%N; 58%N; 47%N; 47%N].
    cbn. now destruct (k (Some 47%N) s cap).
  - cbn. reflexivity.
Qed.

End Url.

Lemma nonspace_in c : in_cset (none_of [Re.Space]) c = negb (isspace c).
Proof. unfold in_cset. simpl. now rewrite orb_false_r. Qed.

(** The rest of a URL: non-space characters up to whitespace or the end
    of the text, the last of them a word character. *)
Lemma tail_match prev body post :
  Forall (fun c => isspace c = false) body ->
  Re.is_word (after None body) = true ->
  starts (fun c => isspace c = true) post ->
  run url_tail prev (body ++ post) None (fun _ rest cap => Some (rest, cap))
  = Some (post, None).
Proof.
  intros Hb Hw Hp.
  assert (Hne : body <> []) by (intros ->; discriminate Hw).
  unfold url_tail. cbn [run]. apply rx_rep_greedy.
  - revert Hb. apply Forall_impl. intros c Hc. now rewrite nonspace_in, Hc.
  - destruct post as [|c post]; [exact I|]. cbn [starts] in *.
    now rewrite nonspace_in, Hp.
  - destruct body; [congruence | simpl; lia].
  - exact I.
  - rewrite (after_nonempty prev None Hne), Hw.
    assert (Hnw : Re.is_word (List.hd_error post) = false).
    { destruct post as [|c post]; [reflexivity|]. now apply space_not_word. }
    rewrite Hnw. cbn [xorb].
    destruct post as [|c post]; [reflexivity|]. cbn [starts] in Hp.
    unfold in_cset. cbn [negated items only existsb item_in xorb].
    destruct (N.eqb_spec 41 c); [|reflexivity].
    subst c. discriminate Hp.
Qed.

Lemma scheme_head scheme :
  is_scheme scheme ->
  exists c rest, scheme = c :: rest /\ (c = 104%N \/ c = 119%N).
Proof.
  intros [ -> | [ -> | -> ] ].
  - exists 104%N, (u "ttp://"). split; [reflexivity | now left].
  - exists 104%N, (u "ttps://"). split; [reflexivity | now left].
  - exists 119%N, (u "ww."). split; [reflexivity | now right].
Qed.

Lemma url_start prev c s :
  c <> 40%N -> Re.is_word prev = false -> Re.is_word (Some c) = true ->
  match_at url_pattern prev (c :: s) =
  run url_scheme prev (c :: s) None
      (fun p' s' cap' =>
         run url_tail p' s' cap' (fun _ rest cap => Some (rest, cap))).
Proof.
  intros Hc Hp Hw. unfold match_at, url_pattern. cbn [run].
  unfold in_cset at 1. cbn [negated items only existsb item_in xorb].
  destruct (N.eqb_spec 40 c); [congruence|]. cbn [orb].
  cbn [List.hd_error]. rewrite Hp, Hw. reflexivity.
Qed.

(** The pattern matches a URL that stands at a word boundary and ends
    before whitespace or at the end of the text. *)
Lemma url_match prev scheme body post :
  Re.is_word prev = false -> is_scheme scheme ->
  Forall (fun c => isspace c = false) body ->
  Re.is_word (after None body) = true ->
  starts (fun c => isspace c = true) post ->
  match_at url_pattern prev (scheme ++ body ++ post) = Some (post, None).
Proof.
  intros Hp Hs Hb Hw Hpost.
  destruct (scheme_head Hs) as (c & rest & E & Hc).
  assert (Hg : scheme ++ body ++ post = c :: (rest ++ body ++ post))
    by (now rewrite E).
  rewrite Hg, url_start; try assumption.
  - rewrite <- Hg, scheme_match by assumption. now apply tail_match.
  - destruct Hc; subst c; discriminate.
  - destruct Hc; now subst c.
Qed.

Lemma url_head prev c b :
  c <> 104%N -> c <> 119%N ->
  (c = 40%N -> starts (fun d => d <> 104%N /\ d <> 119%N) b) ->
  match_at url_pattern prev (c :: b) = None.
Proof.
  intros Hh Hw Hb. unfold match_at, url_pattern. cbn [run].
  assert (Hout : forall p,
            (if xorb (Re.is_word p) (Re.is_word (List.hd_error (c :: b)))
             then run url_scheme p (c :: b) None
                    (fun p' s' cap' =>
                       run url_tail p' s' cap'
                           (fun _ rest cap => Some (rest, cap)))
             else None) = None).
  { intros p. destruct (xorb _ _); [|reflexivity].
    apply scheme_none. cbn [starts]. auto. }
  unfold in_cset. cbn [negated items only existsb item_in xorb].
  destruct (N.eqb_spec 40 c) as [E|E]; cbn [orb]; [|apply Hout].
  symmetry in E. specialize (Hb E).
  destruct (xorb _ _); [|apply Hout].
  rewrite scheme_none by assumption. apply Hout.
Qed.

Lemma url_end prev : match_at url_pattern prev [] = None.
Proof.
  unfold match_at, url_pattern. cbn [run].
  now destruct (xorb _ _).
Qed.

Lemma url_unmatched (pre s : str) :
  Forall (fun c => c <> 40%N /\ c <> 104%N /\ c <> 119%N) pre ->
  unmatched url_pattern pre s.
Proof.
  intros H a c b p E. subst pre. apply Forall_app in H. destruct H as [_ H].
  inversion H as [|? ? (H40 & Hh & Hw) _]; subst.
  apply url_head; try assumption. congruence.
Qed.

(** Text without "h" and "w" holds no URL. *)
Lemma url_free (s : str) tpl prev :
  Forall (fun c => c <> 104%N /\ c <> 119%N) s ->
  scan url_pattern tpl 0 prev s = s.
Proof.
  intros H. apply scan_id; [|intros; apply url_end].
  intros a c b p E. rewrite app_nil_r. subst s.
  apply Forall_app in H. destruct H as [_ H].
  inversion H as [|? ? (Hh & Hw) Hb]; subst.
  apply url_head; try assumption. intros _.
  destruct b as [|d b]; [exact I|]. now inversion Hb.
Qed.

Lemma hyperlink_head prev c s :
  c <> 61%N -> match_at hyperlink_pattern prev (c :: s) = None.
Proof.
  intros H. unfold match_at, hyperlink_pattern. cbn [run].
  change hyperlink_open with (61%N :: tl hyperlink_open). cbn [lit].
  destruct (N.eqb_spec 61 c); [congruence | reflexivity].
Qed.

Lemma hyperlink_end prev : match_at hyperlink_pattern prev [] = None.
Proof. reflexivity. Qed.

Lemma hyperlink_free (s : str) tpl prev :
  Forall (fun c => c <> 61%N) s -> scan hyperlink_pattern tpl 0 prev s = s.
Proof.
  intros H. apply scan_id; [|intros; apply hyperlink_end].
  intros a c b p E. rewrite app_nil_r. subst s.
  apply Forall_app in H. destruct H as [_ H]. inversion H; subst.
  now apply hyperlink_head.
Qed.

Lemma parens_free (s : str) tpl prev :
  Forall (fun c => c <> 40%N) s -> scan empty_parens tpl 0 prev s = s.
Proof.
  intros H. unfold empty_parens. apply guarded_id.
  revert H. apply Forall_impl. intros c Hc.
  unfold in_cset. cbn [negated items only existsb item_in xorb].
  destruct (N.eqb_spec 40 c); [congruence | reflexivity].
Qed.

Lemma lit_self R l prev cap (k : cont R) :
  lit l prev l cap k = k (after prev l) [] cap.
Proof. rewrite <- (app_nil_r l) at 2. apply lit_match. Qed.

Lemma quote_in c : in_cset (none_of [Re.Ch 34]) c = negb (34 =? c)%N.
Proof. unfold in_cset. simpl. now rewrite orb_false_r. Qed.

(** The formula is matched as a whole and its label is captured. *)
Lemma hyperlink_match prev url label :
  url <> [] -> label <> [] ->
  Forall (fun c => c <> 34%N) url -> Forall (fun c => c <> 34%N) label ->
  match_at hyperlink_pattern prev (hyperlink url label) = Some ([], Some label).
Proof.
  intros Hu Hl Hqu Hql.
  assert (Hin : forall s, Forall (fun c => c <> 34%N) s ->
                          all (in_cset (none_of [Re.Ch 34])) s).
  { intros s. apply Forall_impl. intros c Hc. rewrite quote_in.
    destruct (N.eqb_spec 34 c); [congruence | reflexivity]. }
  unfold match_at, hyperlink_pattern, hyperlink. cbn [run].
  rewrite lit_match. apply rx_rep_greedy; try exact I.
  - now apply Hin.
  - reflexivity.
  - destruct url; [congruence | simpl; lia].
  - rewrite lit_match. apply rx_rep_greedy; try exact I.
    + now apply Hin.
    + reflexivity.
    + destruct label; [congruence | simpl; lia].
    + cbv beta. rewrite lit_self.
      do 3 f_equal. rewrite length_app.
      replace (length label + length hyperlink_close - length hyperlink_close)
        with (length label) by lia.
      rewrite firstn_app, firstn_all, Nat.sub_diag. simpl. apply app_nil_r.
Qed.

End LinkFacts.

Import LinkFacts.

Lemma plain_parts (s : str) :
  Forall plain s ->
  Forall (fun c => c <> 104%N /\ c <> 119%N) s /\
  Forall (fun c => c <> 61%N) s /\ Forall (fun c => c <> 40%N) s /\
  Forall (fun c => c <> 40%N /\ c <> 104%N /\ c <> 119%N) s.
Proof.
  intros H. repeat split; revert H; apply Forall_impl; unfold plain; tauto.
Qed.

(** X23.  A text without "(", "=", "h" and "w" is only stripped of its
    surrounding whitespace by [clean_links]. *)
Theorem plain_text_only_stripped (text : str) :
  Forall plain text -> clean_links text = strip text.
Proof.
  intros H. apply plain_parts in H. destruct H as (Hu & Hh & Hp & _).
  unfold clean_links, sub.
  now rewrite url_free, hyperlink_free, parens_free.
Qed.

Lemma plain_text_only_stripped_witness :
  clean_links (u " Оператор открывает клапан. ")
  = strip (u " Оператор открывает клапан. ").
Proof.
  apply (@plain_text_only_stripped (u " Оператор открывает клапан. ")).
  apply (@Forall_dec_true _ plain
           (fun c => negb (existsb (N.eqb c) [40; 61; 104; 119]%N))).
  - intros c H. apply negb_true_iff in H.
    unfold plain; repeat split; intros ->; discriminate H.
  - vm_compute; reflexivity.
Defined.

(** X24.  An Excel formula [=HYPERLINK(url, label)] with both parts
    quoted, non-empty and free of quotes, whose parts contain neither
    "h" nor "w" and whose label contains no "(", is replaced by its
    label. *)
Theorem hyperlink_replaced_by_label (url label : str) :
  url <> [] -> label <> [] ->
  Forall (fun c => c <> 34%N /\ c <> 104%N /\ c <> 119%N) url ->
  Forall (fun c => c <> 34%N /\ c <> 40%N /\ c <> 104%N /\ c <> 119%N) label ->
  clean_links (hyperlink url label) = strip label.
Proof.
  intros Hu Hl Hurl Hlabel.
  assert (Hconst : forall s,
            forallb (fun c => negb (c =? 104)%N && negb (c =? 119)%N) s = true ->
            Forall (fun c => c <> 104%N /\ c <> 119%N) s).
  { intros s. apply Forall_dec_true. intros c Hc. apply andb_prop in Hc.
    destruct Hc as [H1 H2]. apply negb_true_iff in H1, H2.
    split; now apply N.eqb_neq. }
  assert (Hfree : Forall (fun c => c <> 104%N /\ c <> 119%N) (hyperlink url label)).
  { unfold hyperlink.
    apply Forall_app; split; [now apply Hconst|].
    apply Forall_app; split; [revert Hurl; apply Forall_impl; tauto|].
    apply Forall_app; split; [now apply Hconst|].
    apply Forall_app; split; [revert Hlabel; apply Forall_impl; tauto|].
    now apply Hconst. }
  assert (Hm : match_at hyperlink_pattern None (hyperlink url label ++ [])
               = Some ([], Some label)).
  { rewrite app_nil_r. apply hyperlink_match; try assumption.
    - revert Hurl. apply Forall_impl. tauto.
    - revert Hlabel. apply Forall_impl. tauto. }
  assert (Hne : hyperlink url label <> []) by discriminate.
  unfold clean_links, sub. rewrite url_free by assumption.
  rewrite <- (app_nil_r (hyperlink url label)).
  rewrite (@scan_match hyperlink_pattern [Group1] None (hyperlink url label) []
             (Some label) Hne Hm).
  cbn [expand flat_map scan]. rewrite hyperlink_end, !app_nil_r.
  rewrite parens_free; [reflexivity|].
  revert Hlabel. apply Forall_impl. tauto.
Qed.

Lemma hyperlink_replaced_by_label_witness :
  clean_links (hyperlink (u "doc.pdf") (u "Отчёт")) = strip (u "Отчёт").
Proof.
  apply (@hyperlink_replaced_by_label (u "doc.pdf") (u "Отчёт")).
  - vm_compute; discriminate.
  - vm_compute; discriminate.
  - repeat constructor; vm_compute; discriminate.
  - repeat constructor; vm_compute; discriminate.
Defined.

(** X25.  A URL that starts with [http://], [https://] or [www.] at the
    start of the text or after a non-word character among the tabulated
    code points, runs up to the next whitespace and ends with a word
    character is deleted by [clean_links], the text around it being
    free of "(", "=", "h" and "w". *)
Theorem url_removed (pre scheme body post : str) :
  Forall plain pre ->
  starts (fun c => tabulated c = true) (rev pre) ->
  Re.is_word (after None pre) = false ->
  is_scheme scheme ->
  Forall (fun c => isspace c = false) body ->
  Re.is_word (after None body) = true ->
  Forall plain post -> starts (fun c => isspace c = true) post ->
  clean_links (pre ++ scheme ++ body ++ post) = strip (pre ++ post).
Proof.
  intros Hpre _ Hw Hs Hb Hbw Hpost Hsp.
  assert (Hall : Forall plain (pre ++ post)) by (apply Forall_app; now split).
  apply plain_parts in Hpre, Hpost, Hall.
  destruct Hpre as (_ & _ & _ & Hpre), Hpost as (Hpost & _),
           Hall as (_ & Hh & Hp & _).
  assert (Hne : scheme ++ body <> []).
  { destruct (scheme_head Hs) as (c & rest & -> & _). discriminate. }
  assert (Hm : match_at url_pattern (after None pre) ((scheme ++ body) ++ post)
               = Some (post, None)).
  { rewrite <- app_assoc. now apply url_match. }
  unfold clean_links, sub.
  rewrite scan_copy by now apply url_unmatched.
  rewrite (app_assoc scheme body post).
  rewrite (@scan_match url_pattern [] (after None pre) (scheme ++ body) post
             None Hne Hm).
  cbn [expand flat_map app]. rewrite url_free by assumption.
  now rewrite hyperlink_free, parens_free.
Qed.

Lemma url_removed_witness :
  clean_links (u "см. " ++ u "https://" ++ u "a.b/c" ++ u " тут")
  = strip (u "см. " ++ u " тут").
Proof.
  apply (@url_removed (u "см. ") (u "https://") (u "a.b/c") (u " тут")).
  - repeat constructor; vm_compute; discriminate.
  - vm_compute; reflexivity.
  - vm_compute; reflexivity.
  - right; left; reflexivity.
  - repeat constructor.
  - vm_compute; reflexivity.
  - repeat constructor; vm_compute; discriminate.
  - vm_compute; reflexivity.
Defined.
